(** * split_auto.py: splitting codegen.cpp by function

    A shallow embedding of [src/split_auto.py] and the properties of its
    scanner, aggregator and emitters.

    Python values are modelled as follows.
    - A [str] is the list of its Unicode code points ([N]); [lit] turns an
      ASCII literal into one, and the characters that a Rocq literal cannot
      hold (newline, the double quote, the CJK text of the header comments)
      are written by code point.
    - [functions], an insertion-ordered [dict], is an association list with
      Python's update rule (a present key keeps its position).
    - [FUNCTION_MAP], only ever looked up, and the file system are [gmap]s.
    - [file_functions] and [headers] are dictionaries over the same five
      literal keys, never extended: total functions on the enumeration
      [file_key].
    - [brace_count] is a Python [int]: [Z]. Line numbers are [nat].

    The last part is on the three installer scripts of [src/scripts]: the
    decisions of their [main()], as runs over an environment. *)

From Stdlib Require Import ZArith String Ascii.
From stdpp Require Import gmap list functions sorting.

Local Open Scope Z_scope.
Local Open Scope nat_scope.

(** ** Strings *)

Abbreviation str := (list N).

Definition lit (s : string) : str := N_of_ascii <$> list_ascii_of_string s.

(** The newline and the double quote, by code point. *)
Definition nl : str := [10%N].
Definition dquote : str := [34%N].

(** [s.count(c)] for a one-character [c], and [c in s]. *)
Definition count (c : N) (s : str) : nat := length (filter (λ x, x = c) s).
Definition contains (c : N) (s : str) : bool := bool_decide (c ∈ s).

Definition lbrace : N := 123%N.
Definition rbrace : N := 125%N.

(** [''.join(l)]. *)
Definition join (l : list str) : str := concat l.

(** [l[start:end]] for [0 <= start], [0 <= end]. *)
Definition slice {A} (l : list A) (start end_ : nat) : list A :=
  take (end_ - start) (drop start l).

(** [needle in hay] for strings. *)
Fixpoint starts_with (p s : str) : bool :=
  match p, s with
  | [], _ => true
  | a :: p', b :: s' => if decide (a = b) then starts_with p' s' else false
  | _ :: _, [] => false
  end.

Fixpoint substring (needle hay : str) : bool :=
  starts_with needle hay ||
  match hay with
  | [] => false
  | _ :: hay' => substring needle hay'
  end.

(** [f.readlines()] on the text of a file, as a read in text mode gives
    it (decoded, line ends normalised to the newline): every line keeps
    its newline; a last line without one is kept as it is. *)
Fixpoint readlines_from (cur : str) (text : str) : list str :=
  match text with
  | [] => match cur with [] => [] | _ => [cur] end
  | c :: text' =>
      if decide (c = 10%N) then (cur ++ [c]) :: readlines_from [] text'
      else readlines_from (cur ++ [c]) text'
  end.

Definition readlines (text : str) : list str := readlines_from [] text.

(** ** Insertion-ordered dictionaries *)

Section dict.
Context {V : Type}.

(** [d[k] = v] *)
Fixpoint dict_set (d : list (str * V)) (k : str) (v : V) : list (str * V) :=
  match d with
  | [] => [(k, v)]
  | (k', v') :: d' =>
      if decide (k' = k) then (k, v) :: d' else (k', v') :: dict_set d' k v
  end.

(** [d[k]], [None] for a [KeyError]; [k in d] is [is_Some]. *)
Fixpoint dict_get (d : list (str * V)) (k : str) : option V :=
  match d with
  | [] => None
  | (k', v') :: d' => if decide (k' = k) then Some v' else dict_get d' k
  end.
End dict.

(** ** The regular expressions

    The fragment of Python's [re] that the two patterns use, with its
    backtracking order: [rmatch] lists every way to match a prefix of the
    input, first choice first, as the groups captured and the input left. *)

Inductive regex :=
| Lit (s : str)
| WordPlus
| Alt (r1 r2 : regex)
| Seq (r1 r2 : regex)
| Group (r : regex).

Section regex.
(** [\w] on a [str] pattern is [[a-zA-Z0-9_]] and every other code point
    that Unicode classifies as alphanumeric. The Unicode table belongs
    to the interpreter, not to the repository: a parameter. *)
Variable unicode_alnum : N → bool.

Definition is_ascii_alnum (c : N) : bool :=
  ((48 <=? c) && (c <=? 57) || (65 <=? c) && (c <=? 90)
   || (97 <=? c) && (c <=? 122))%N.

Definition is_word (c : N) : bool :=
  is_ascii_alnum c || bool_decide (c = 95%N)
  || (128 <=? c)%N && unicode_alnum c.

Fixpoint strip_prefix (p s : str) : option str :=
  match p, s with
  | [], _ => Some s
  | a :: p', b :: s' => if decide (a = b) then strip_prefix p' s' else None
  | _ :: _, [] => None
  end.

(** [\w+], greedy: what is left after one or more word characters, the
    longest run first. *)
Fixpoint word_plus (s : str) : list str :=
  match s with
  | c :: s' => if is_word c then word_plus s' ++ [s'] else []
  | [] => []
  end.

Fixpoint rmatch (r : regex) (caps : list str) (s : str)
  : list (list str * str) :=
  match r with
  | Lit p =>
      match strip_prefix p s with Some s' => [(caps, s')] | None => [] end
  | WordPlus => (λ s', (caps, s')) <$> word_plus s
  | Alt r1 r2 => rmatch r1 caps s ++ rmatch r2 caps s
  | Seq r1 r2 => rmatch r1 caps s ≫= (λ m, rmatch r2 m.1 m.2)
  | Group r1 =>
      (λ m, (m.1 ++ [take (length s - length m.2) s], m.2))
        <$> rmatch r1 caps s
  end.

(** [re.match(r, s)]: the groups of the first match, if any. *)
Definition re_match (r : regex) (s : str) : option (list str) :=
  fst <$> head (rmatch r [] s).

(** [m.group(n)], [n >= 1]. *)
Definition group (n : nat) (m : list str) : str := default [] (m !! pred n).

(** [^(llvm::\w+\*|void|bool|std::string) CodeGenerator::] *)
Definition prefix_re : regex :=
  Seq (Group (Alt (Seq (Lit (lit "llvm::")) (Seq WordPlus (Lit (lit "*"))))
             (Alt (Lit (lit "void"))
             (Alt (Lit (lit "bool")) (Lit (lit "std::string"))))))
      (Lit (lit " CodeGenerator::")).

(** [^(llvm::\w+\*|void|bool|std::string) CodeGenerator::(\w+)\(] *)
Definition header_re : regex :=
  Seq prefix_re (Seq (Group WordPlus) (Lit (lit "("))).

(** The language of a pattern, to compare the matcher with: the strings
    that it matches from end to end. *)
Fixpoint lang (r : regex) (w : str) : Prop :=
  match r with
  | Lit p => w = p
  | WordPlus => w ≠ [] ∧ Forall (λ c, is_word c = true) w
  | Alt r1 r2 => lang r1 w ∨ lang r2 w
  | Seq r1 r2 => ∃ w1 w2, w = w1 ++ w2 ∧ lang r1 w1 ∧ lang r2 w2
  | Group r1 => lang r1 w
  end.

(** The return types of the two patterns. *)
Definition return_type (rt : str) : Prop :=
  (∃ w, w ≠ [] ∧ Forall (λ c, is_word c = true) w
        ∧ rt = lit "llvm::" ++ w ++ lit "*")
  ∨ rt = lit "void" ∨ rt = lit "bool" ∨ rt = lit "std::string".
End regex.


(** ** The five output files *)

Inductive file_key := Match | Type_ | Struct | Stmt | Expr.

#[global] Instance file_key_eq_dec : EqDecision file_key.
Proof. solve_decision. Defined.

(** The keys of [file_functions] (and of [headers]), in the order of the
    dictionary literal, which is the order [.items()] yields them in. *)
Definition file_keys : list file_key := [Match; Type_; Struct; Stmt; Expr].

Definition key_name (k : file_key) : str :=
  match k with
  | Match => lit "match"
  | Type_ => lit "type"
  | Struct => lit "struct"
  | Stmt => lit "stmt"
  | Expr => lit "expr"
  end.

(** The key a target string names; [None] is the [KeyError] of
    [file_functions[target_file]]. *)
Definition key_of_name (s : str) : option file_key :=
  find (λ k, bool_decide (key_name k = s)) file_keys.

(** The header comments: two slashes, a space, a CJK caption, a newline. *)
Definition headers (k : file_key) : str :=
  (lit "// " ++
   match k with
   | Match => [27169; 24335; 21305; 37197; 20195; 30721; 29983; 25104]
   | Type_ => [31867; 22411; 36716; 25442; 21644; 27867; 22411; 23454;
               20363; 21270]
   | Struct => lit "Struct" ++ [21644] ++ lit "Enum"
               ++ [20195; 30721; 29983; 25104]
   | Stmt => [35821; 21477; 20195; 30721; 29983; 25104]
   | Expr => [34920; 36798; 24335; 20195; 30721; 29983; 25104]
   end ++ nl)%N.

Definition input_path : str := lit "src/codegen/codegen.cpp".
(** [f'src/codegen/codegen_{file_key}.cpp'] *)
Definition filename_of (file_key : str) : str :=
  lit "src/codegen/codegen_" ++ file_key ++ lit ".cpp".
Definition filename (k : file_key) : str := filename_of (key_name k).
Definition reduced_path : str := lit "src/codegen/codegen_new.cpp".

Definition namespace_close : str := lit "} // namespace pawc" ++ nl.

(** ** The script's own configuration *)

(** One entry of [FUNCTION_MAP]; every target in it is the name of a key. *)
Definition entry (func_name : string) (target : file_key) : str * str :=
  (lit func_name, key_name target).

Definition FUNCTION_MAP_src : gmap str str :=
  list_to_map
  [ entry "generateMatchExpr" Match;
    entry "generateIsExpr" Match;
    entry "matchPattern" Match;
    entry "convertType" Type_;
    entry "convertPrimitiveType" Type_;
    entry "getOrCreateStructType" Type_;
    entry "getEnumType" Type_;
    entry "createOptionalType" Type_;
    entry "ensureOptionalEnumDef" Type_;
    entry "resolveGenericType" Type_;
    entry "mangleGenericName" Type_;
    entry "resolveGenericStructName" Type_;
    entry "isGenericFunction" Type_;
    entry "instantiateGenericFunction" Type_;
    entry "instantiateGenericStruct" Type_;
    entry "instantiateGenericEnum" Type_;
    entry "instantiateGenericStructMethods" Type_;
    entry "convertTypeToCurrentContext" Type_;
    entry "generateFunctionStmt" Struct;
    entry "generateExternStmt" Struct;
    entry "generateStructStmt" Struct;
    entry "generateEnumStmt" Struct;
    entry "generateImplStmt" Struct;
    entry "generateStructLiteralExpr" Struct;
    entry "generateEnumVariantExpr" Struct;
    entry "generateMemberAccessExpr" Struct;
    entry "generateArrayLiteralExpr" Struct;
    entry "importTypeFromModule" Struct;
    entry "generateStmt" Stmt;
    entry "generateLetStmt" Stmt;
    entry "generateReturnStmt" Stmt;
    entry "generateIfStmt" Stmt;
    entry "generateLoopStmt" Stmt;
    entry "generateBreakStmt" Stmt;
    entry "generateContinueStmt" Stmt;
    entry "generateBlockStmt" Stmt;
    entry "generateExprStmt" Stmt;
    entry "generateExpr" Expr;
    entry "generateBinaryExpr" Expr;
    entry "generateUnaryExpr" Expr;
    entry "generateCallExpr" Expr;
    entry "generateArgumentValue" Expr;
    entry "generateBuiltinCall" Expr;
    entry "generateAssignExpr" Expr;
    entry "generateIndexExpr" Expr;
    entry "generateIdentifierExpr" Expr;
    entry "generateIfExpr" Expr;
    entry "generateCastExpr" Expr;
    entry "generateTryExpr" Expr;
    entry "generateOkExpr" Expr;
    entry "generateErrExpr" Expr ].

Definition keep_functions_src : list str :=
  [lit "printIR"; lit "saveIR"; lit "compileToObject"; lit "generate"].

(** A Unicode table for the examples below: their text is ASCII, on which
    it is never consulted. *)
Definition no_unicode : N → bool := λ _, false.

(** ** The values of the pipeline *)

(** A value of [functions]: [(start, end, FUNCTION_MAP[func_name])]. *)
Definition extent : Type := nat * nat * str.
(** An element of a [file_functions] list: [(func_name, start, end)]. *)
Definition func : Type := str * nat * nat.
(** One [print(f"Found ...")] of the scanner, as the values it formats:
    name, start, end, target. *)
Definition found : Type := str * nat * nat * str.

Inductive error := FileNotFoundError | KeyError (key : str).

(** ** Example inputs *)

(** A source with a multi-line signature, a nested block, a function that
    the table does not list, and two functions of one category. *)
Definition ex_lines : list str :=
  [ lit "namespace pawc {" ++ nl;
    lit "void CodeGenerator::generateStmt(" ++ nl;
    lit "    int x)" ++ nl;
    lit "{" ++ nl;
    lit "  if (x) {" ++ nl;
    lit "  }" ++ nl;
    lit "}" ++ nl;
    nl;
    lit "void CodeGenerator::printIR()" ++ nl;
    lit "{" ++ nl;
    lit "}" ++ nl;
    lit "bool CodeGenerator::generateExpr()" ++ nl;
    lit "{" ++ nl;
    lit "}" ++ nl;
    lit "void CodeGenerator::generateLetStmt()" ++ nl;
    lit "{" ++ nl;
    lit "}" ++ nl ].

Definition ex_fs : gmap str str := {[ input_path := join ex_lines ]}.

(** The same, with a file left by an earlier run. *)
Definition ex_fs_stale : gmap str str :=
  <[filename Match := lit "// stale" ++ nl]> ex_fs.

(** The example of the specification, as it is written there. *)
Definition claim_lines : list str :=
  [ lit "A::f(){ int x = 1; return x; }" ++ nl; lit "A::g(){ }" ++ nl ].
Definition claim_table : gmap str str :=
  {[ lit "f" := lit "cat1"; lit "g" := lit "cat2" ]}.
Definition claim_allow : list str := [lit "g"].

(** The same two functions with headers of the form the scanner looks
    for and bodies on the lines that it scans, after a preamble; and the
    same with the bodies on the header lines. *)
Definition shaped_lines : list str :=
  [ lit "namespace pawc {" ++ nl;
    lit "void CodeGenerator::f()" ++ nl;
    lit "{ int x = 1; return x; }" ++ nl;
    lit "void CodeGenerator::g()" ++ nl;
    lit "{ }" ++ nl ].
Definition shaped_table : gmap str str :=
  {[ lit "f" := key_name Match; lit "g" := key_name Type_ ]}.

Definition one_line_bodies : list str :=
  [ lit "void CodeGenerator::f(){ int x = 1; return x; }" ++ nl;
    lit "void CodeGenerator::g(){ }" ++ nl ].

(** A closing brace in a comment of the signature. *)
Definition early_brace_header : str := lit "void CodeGenerator::generateStmt(" ++ nl.
Definition early_brace_pre : list str := [ lit "    int x /* } */)" ++ nl ].
Definition early_brace_rest : list str :=
  [ lit "{" ++ nl; lit "  return;" ++ nl; lit "}" ++ nl ].

(** Braces in a default argument of the signature. *)
Definition default_argument_lines : list str :=
  [ lit "void CodeGenerator::generateStmt(" ++ nl;
    lit "    std::vector<int> v = {})" ++ nl;
    lit "{" ++ nl;
    lit "  return;" ++ nl;
    lit "}" ++ nl ].

(** Bodies opened on the header lines. *)
Definition same_line_brace_lines : list str :=
  [ lit "void CodeGenerator::generateBreakStmt() {" ++ nl;
    lit "  br();" ++ nl;
    lit "}" ++ nl;
    nl;
    lit "void CodeGenerator::generateContinueStmt() {" ++ nl;
    lit "  cont();" ++ nl;
    lit "}" ++ nl ].

(** An overload after a function of the same category. *)
Definition interleaved_lines : list str :=
  [ lit "llvm::Value* CodeGenerator::generateExpr(const Expr* e)" ++ nl;
    lit "{" ++ nl;
    lit "}" ++ nl;
    lit "llvm::Value* CodeGenerator::generateCallExpr(const Expr* e)" ++ nl;
    lit "{" ++ nl;
    lit "}" ++ nl;
    lit "llvm::Value* CodeGenerator::generateExpr(const Expr* e, bool b)" ++ nl;
    lit "{" ++ nl;
    lit "}" ++ nl ].

(** Two overloads. *)
Definition overload_lines : list str :=
  [ lit "llvm::Value* CodeGenerator::generateExpr(const Expr* e)" ++ nl;
    lit "{" ++ nl;
    lit "  return first(e);" ++ nl;
    lit "}" ++ nl;
    lit "llvm::Value* CodeGenerator::generateExpr(const Expr* e, bool b)" ++ nl;
    lit "{" ++ nl;
    lit "  return second(e, b);" ++ nl;
    lit "}" ++ nl ].

(** A static member defined ahead of the first function. *)
Definition member_lines : list str :=
  [ lit "namespace pawc {" ++ nl;
    lit "bool CodeGenerator::verbose = false;" ++ nl;
    lit "void CodeGenerator::generateStmt()" ++ nl;
    lit "{" ++ nl;
    lit "}" ++ nl ].

(** A function of the allow-list. *)
Definition core_lines : list str :=
  [ lit "namespace pawc {" ++ nl;
    lit "void CodeGenerator::printIR()" ++ nl;
    lit "{" ++ nl;
    lit "  module->print(llvm::outs(), nullptr);" ++ nl;
    lit "}" ++ nl ].

(** A function whose body is never closed. *)
Definition unclosed_lines : list str :=
  [ lit "void CodeGenerator::generateStmt()" ++ nl;
    lit "{" ++ nl;
    lit "  if (x) {" ++ nl;
    lit "}" ++ nl ].

(** A source without any function of the class. *)
Definition plain_text : str :=
  lit "#include <iostream>" ++ nl ++ lit "int main() { return 0; }" ++ nl.

(** ** The installer scripts: what they decide and in which order

    The three scripts of [src/scripts] print, ask and call out. A run is
    modelled by its exit code and the list of the calls it makes, in
    order; what a call returns, or that it raises, is taken from the
    environment, and so are the command line, the answers typed and the
    tests on the file system. [shutil.which(cmd) is not None] is
    [check_command], [platform.system()] and [platform.machine()] are
    [system] and [machine]. What is printed is left out. *)

(** What a call does: it returns (a truth value, where one is used) or it
    raises. *)
Inductive outcome := Returns (b : bool) | Raises.

(** [call run a k]: the call [a], then the rest [k] of [main] with what
    the call returned. An exception that the script does not catch ends
    the run in the handler at the foot of the script, with
    [sys.exit(1)]. *)
Definition call {A} (run : A → outcome) (a : A) (k : bool → nat * list A)
  : nat * list A :=
  match run a with
  | Raises => (1, [a])
  | Returns b => let '(code, tr) := k b in (code, a :: tr)
  end.

(** [input(...)], stripped (and lowered) as the script does, then the rest
    [k] of [main]; the answer is [None] when [input] raises (end of input,
    interrupt). *)
Definition ask {A} (answer : option str) (k : str → nat * list A)
  : nat * list A :=
  match answer with
  | None => (1, [])
  | Some response => k response
  end.

Module SetupLLVM.

(** [check_dependencies()] of [scripts/setup_llvm.py]: the value returned,
    with [missing] and [cxx_compiler] as they stand at the [return]. *)
Definition check_dependencies (check_command : str → bool) (system : str)
  : bool * list str * option str :=
  let missing := [] in
  let missing :=
    if negb (check_command (lit "cmake")) then missing ++ [lit "cmake"]
    else missing in
  let missing :=
    if negb (check_command (lit "ninja")) then missing ++ [lit "ninja"]
    else missing in
  let cxx_compiler := None in
  let '(cxx_compiler, missing) :=
    if decide (system = lit "Windows") then
      if check_command (lit "cl")
      then (Some (lit "Visual Studio (cl.exe)"), missing)
      else if check_command (lit "g++")
      then (Some (lit "MinGW g++"), missing)
      else (cxx_compiler,
            missing ++ [lit "C++ compiler (Visual Studio or MinGW)"])
    else
      if check_command (lit "g++")
      then (Some (lit "g++"), missing)
      else if check_command (lit "clang++")
      then (Some (lit "clang++"), missing)
      else (cxx_compiler, missing ++ [lit "C++ compiler (g++ or clang++)"]) in
  match missing with
  | _ :: _ => (false, missing, cxx_compiler)
  | [] => (true, missing, cxx_compiler)
  end.

(** The calls of [main()]: [shutil.rmtree(llvm_src_dir)],
    [llvm_dir.mkdir], the two downloads, [verify_source], and the two
    [mkdir] at the end. *)
Inductive action :=
| RemoveSource | MakeLlvmDir | DownloadWithGit | DownloadArchive
| VerifySource | MakeBuildDir | MakeInstallDir.

Record env := {
  source_exists : bool;               (* llvm_path.exists() *)
  yes : bool;                         (* args.yes *)
  method : str;                       (* args.method *)
  answer_redownload : option str;     (* "Re-download source? (y/N): " *)
  answer_continue : option str;       (* "Continue download? (Y/n): " *)
  answer_method : option str;         (* "Select method (1/2): " *)
  run : action → outcome
}.

(** [main()] from [success = False] on, with the [method] chosen. *)
Definition main_fetch (e : env) (method : str) : nat * list action :=
  let fetch :=
    if bool_decide (method = lit "git") || bool_decide (method = lit "1")
    then DownloadWithGit else DownloadArchive in
  call (run e) fetch (λ success,
  if negb success then (1, []) else
  call (run e) VerifySource (λ verified,
  if negb verified then (1, []) else
  call (run e) MakeBuildDir (λ _,
  call (run e) MakeInstallDir (λ _, (0, []))))).

(** [main()] from [# Confirm download] on. *)
Definition main_download (e : env) : nat * list action :=
  let select :=
    call (run e) MakeLlvmDir (λ _,
    let method := method e in
    if negb (yes e) then
      ask (answer_method e) (λ method_input,
      main_fetch e (if bool_decide (method_input = lit "1")
                    then lit "git" else lit "archive"))
    else main_fetch e method) in
  if negb (yes e) then
    ask (answer_continue e) (λ response,
    if bool_decide (response = lit "n") then (1, []) else select)
  else select.

(** [main()]. *)
Definition main (e : env) : nat * list action :=
  if source_exists e then
    if negb (yes e) then
      ask (answer_redownload e) (λ response,
      if negb (bool_decide (response = lit "y")) then (0, [])
      else call (run e) RemoveSource (λ _, main_download e))
    else (0, [])
  else main_download e.

(** A run that finds the source there, is asked, answers [y], and then
    presses Enter at the two other prompts; every call succeeds. *)
Definition ex_env : env :=
  {| source_exists := true; yes := false; method := lit "git";
     answer_redownload := Some (lit "y"); answer_continue := Some [];
     answer_method := Some []; run := λ _, Returns true |}.

End SetupLLVM.

Module BuildLLVM.

(** The dependency check of [main()] of [scripts/build_llvm.py]: [None]
    when [main] returns 1 there, and [cxx_compiler] when it goes on. *)
Definition check_dependencies (check_command : str → bool) (system : str)
  : option str :=
  if negb (check_command (lit "cmake")) then None
  else if negb (check_command (lit "ninja")) then None
  else
    if decide (system = lit "Windows") then
      if check_command (lit "cl") then Some (lit "Visual Studio (cl.exe)")
      else if check_command (lit "g++") then Some (lit "MinGW g++")
      else None
    else
      if check_command (lit "g++") then Some (lit "g++")
      else if check_command (lit "clang++") then Some (lit "clang++")
      else None.

(** [get_cpu_count()]: [multiprocessing.cpu_count()], or 4 when that
    raises ([None]). *)
Definition get_cpu_count (cpu_count : option Z) : Z := default 4%Z cpu_count.

(** The calls of [main()]: [shutil.rmtree(llvm_build)], the two [mkdir],
    [os.chdir], and the three [subprocess.run]: cmake with its target
    list, [ninja -j] with the number of jobs, [ninja install]. *)
Inductive action :=
| CleanBuildDir | MakeBuildDir | MakeInstallDir | ChangeDir
| Configure (targets : str) | NinjaBuild (jobs : Z) | NinjaInstall.

Record env := {
  source_exists : bool;               (* llvm_src.exists() *)
  check_command : str → bool;
  system : str;
  clean : bool;                       (* args.clean *)
  build_exists : bool;                (* llvm_build.exists() *)
  jobs : Z;                           (* args.jobs *)
  cpu_count : option Z;
  interactive : bool;                 (* args.interactive *)
  answer_continue : option str;       (* "Continue build? (Y/n): " *)
  run : action → outcome
}.

(** [main()] from [os.chdir(llvm_build)] on. For the three
    [subprocess.run(..., check=True)], [Returns false] is a
    [CalledProcessError], which [main] turns into [return 1]. *)
Definition main_build (e : env) (cpu_count : Z) : nat * list action :=
  call (run e) ChangeDir (λ _,
  let targets :=
    if bool_decide (system e = lit "Darwin")
    then lit "-DLLVM_TARGETS_TO_BUILD=AArch64;X86"
    else lit "-DLLVM_TARGETS_TO_BUILD=X86" in
  call (run e) (Configure targets) (λ ok,
  if negb ok then (1, []) else
  call (run e) (NinjaBuild cpu_count) (λ ok,
  if negb ok then (1, []) else
  call (run e) NinjaInstall (λ ok,
  if negb ok then (1, []) else (0, []))))).

(** [main()] from [# Create build directories] on. *)
Definition main_prepare (e : env) : nat * list action :=
  call (run e) MakeBuildDir (λ _,
  call (run e) MakeInstallDir (λ _,
  let cpu_count :=
    if (0 <? jobs e)%Z then jobs e else get_cpu_count (cpu_count e) in
  if interactive e then
    ask (answer_continue e) (λ response,
    if bool_decide (response = lit "n") then (0, [])
    else main_build e cpu_count)
  else main_build e cpu_count)).

(** [main()]. *)
Definition main (e : env) : nat * list action :=
  if negb (source_exists e) then (1, []) else
  match check_dependencies (check_command e) (system e) with
  | None => (1, [])
  | Some cxx_compiler =>
      if clean e && build_exists e
      then call (run e) CleanBuildDir (λ _, main_prepare e)
      else main_prepare e
  end.

(** A clean build on Linux with g++, eight cores and no prompt; every
    call succeeds. *)
Definition ex_env : env :=
  {| source_exists := true;
     check_command :=
       λ cmd, bool_decide (cmd ∈ [lit "cmake"; lit "ninja"; lit "g++"]);
     system := lit "Linux"; clean := true; build_exists := true;
     jobs := 0; cpu_count := Some 8%Z; interactive := false;
     answer_continue := None; run := λ _, Returns true |}.

(** The same with the prompt, answered [n]. *)
Definition ex_cancel : env :=
  {| source_exists := true;
     check_command :=
       λ cmd, bool_decide (cmd ∈ [lit "cmake"; lit "ninja"; lit "g++"]);
     system := lit "Linux"; clean := true; build_exists := true;
     jobs := 0; cpu_count := Some 8%Z; interactive := true;
     answer_continue := Some (lit "n"); run := λ _, Returns true |}.

End BuildLLVM.

Module InstallLLVM.

Definition LLVM_VERSION : str := lit "19.1.7".
Definition GITHUB_REPO : str := lit "pawlang-project/llvm-build".
Definition RELEASE_TAG : str := lit "19.1.7".

(** [platform_map] of [detect_platform()]. *)
Definition platform_map : list ((str * str) * (str * str)) :=
  [ ((lit "Darwin", lit "x86_64"),
     (lit "clang+llvm-19.1.7-x86_64-apple-darwin.tar.xz", lit "macOS Intel"));
    ((lit "Darwin", lit "arm64"),
     (lit "clang+llvm-19.1.7-aarch64-apple-darwin.tar.xz",
      lit "macOS Apple Silicon (M1/M2/M3)"));
    ((lit "Linux", lit "x86_64"),
     (lit "clang+llvm-19.1.7-x86_64-linux-gnu.tar.xz", lit "Linux x86_64"));
    ((lit "Linux", lit "aarch64"),
     (lit "clang+llvm-19.1.7-aarch64-linux-gnu.tar.xz", lit "Linux ARM64")) ].

(** [detect_platform()]: [None] for [(None, None)]. *)
Definition detect_platform (system machine : str) : option (str * str) :=
  snd <$> find (λ e, bool_decide (e.1 = (system, machine))) platform_map.

(** The [url] of [main()]. *)
Definition url (filename : str) : str :=
  lit "https://github.com/" ++ GITHUB_REPO ++ lit "/releases/download/"
  ++ RELEASE_TAG ++ lit "/" ++ filename.

(** The calls of [main()]: [shutil.rmtree(install_dir)], the two [mkdir],
    [download_file] with its URL and the name of the archive,
    [extract_archive], [install_llvm], [shutil.rmtree(temp_dir)],
    [verify_installation], [build_pawlang], [run_test]. *)
Inductive action :=
| RemoveInstall | MakeLlvmDir | MakeTempDir
| Download (url filename : str) | Extract | Install | RemoveTemp
| Verify | Build | Test.

#[global] Instance action_eq_dec : EqDecision action.
Proof. solve_decision. Defined.

Record env := {
  system : str;
  machine : str;
  clang_exists : bool;                (* clang_path.exists() *)
  clang19_exists : bool;              (* clang19_path.exists() *)
  yes : bool;                         (* args.yes *)
  skip_build : bool;                  (* args.skip_build *)
  skip_test : bool;                   (* args.skip_test *)
  answer_reinstall : option str;      (* "Reinstall? (y/N): " *)
  run : action → outcome
}.

(** [main()] from [# Test] on. *)
Definition main_test (e : env) : nat * list action :=
  if negb (skip_test e) && negb (skip_build e)
  then call (run e) Test (λ _, (0, []))
  else (0, []).

(** [main()] from [# Step 5: Verify] on. *)
Definition main_verify (e : env) : nat * list action :=
  call (run e) Verify (λ verified,
  if negb verified then (1, []) else
  if negb (skip_build e) then
    call (run e) Build (λ built,
    if negb built then (1, []) else main_test e)
  else main_test e).

(** [main()] from [if not skip_download:] on. *)
Definition main_download (e : env) (filename : str) (skip_download : bool)
  : nat * list action :=
  if negb skip_download then
    call (run e) MakeLlvmDir (λ _,
    call (run e) MakeTempDir (λ _,
    call (run e) (Download (url filename) filename) (λ ok,
    if negb ok then (1, []) else
    call (run e) Extract (λ ok,
    if negb ok then (1, []) else
    call (run e) Install (λ ok,
    if negb ok then (1, []) else
    call (run e) RemoveTemp (λ _, main_verify e))))))
  else main_verify e.

(** [main()]. *)
Definition main (e : env) : nat * list action :=
  match detect_platform (system e) (machine e) with
  | None => (1, [])
  | Some (filename, platform_name) =>
      if clang_exists e || clang19_exists e then
        if negb (yes e) then
          ask (answer_reinstall e) (λ response,
          if negb (bool_decide (response = lit "y"))
          then main_download e filename true
          else call (run e) RemoveInstall (λ _,
               main_download e filename false))
        else main_download e filename true
      else main_download e filename false
  end.

(** The environment [e] with other outcomes of the calls. *)
Definition with_run (e : env) (run : action → outcome) : env :=
  {| system := system e; machine := machine e;
     clang_exists := clang_exists e; clang19_exists := clang19_exists e;
     yes := yes e; skip_build := skip_build e; skip_test := skip_test e;
     answer_reinstall := answer_reinstall e; run := run |}.

(** A run on Linux x86_64 that finds an installation, is asked, and
    answers [y]; every call succeeds, and the test returns [test]. *)
Definition ex_env (test : bool) : env :=
  {| system := lit "Linux"; machine := lit "x86_64";
     clang_exists := true; clang19_exists := false; yes := false;
     skip_build := false; skip_test := false;
     answer_reinstall := Some (lit "y");
     run := λ a, match a with Test => Returns test | _ => Returns true end |}.

(** The same with [--yes]. *)
Definition ex_yes : env :=
  {| system := lit "Linux"; machine := lit "x86_64";
     clang_exists := true; clang19_exists := false; yes := true;
     skip_build := false; skip_test := false;
     answer_reinstall := None; run := λ _, Returns true |}.

End InstallLLVM.

(** ** The pipeline *)

Section pipeline.

Variable unicode_alnum : N → bool.
(** The classification table and the allow-list are constants of the
    script; the model takes them as parameters, and the script's own are
    [FUNCTION_MAP_src] and [keep_functions_src] above. *)
Variable FUNCTION_MAP : gmap str str.
Variable keep_functions : list str.

(** The inner [while j < len(lines)] of [find_functions]. [rest] is
    [lines[j:]]. [Some end] when the loop breaks, [None] when it runs
    into its [else]. *)
Fixpoint scan_body (rest : list str) (j : nat) (brace_count : Z)
    (in_function : bool) : option nat :=
  match rest with
  | [] => None
  | line :: rest' =>
      let '(brace_count, in_function) :=
        if contains lbrace line
        then ((brace_count + Z.of_nat (count lbrace line))%Z, true)
        else (brace_count, in_function) in
      let brace_count :=
        if contains rbrace line
        then (brace_count - Z.of_nat (count rbrace line))%Z
        else brace_count in
      if in_function && bool_decide (brace_count = 0%Z)
      then Some (j + 1)
      else scan_body rest' (j + 1) brace_count in_function
  end.

(** [end] for a header at line [i]. *)
Definition extent_end (lines : list str) (i : nat) : nat :=
  let j := i + 1 in
  default (length lines) (scan_body (drop j lines) j 0%Z false).

(** The outer [while i < len(lines)]; one unit of [fuel] per iteration,
    [None] when it runs out. The state is [functions] and what has been
    printed. *)
Fixpoint find_loop (fuel : nat) (lines : list str) (i : nat)
    (functions : list (str * extent)) (log : list found)
    : option (list (str * extent) * list found) :=
  match fuel with
  | 0 => None
  | S fuel =>
      match lines !! i with
      | None => Some (functions, log)
      | Some line =>
          match re_match unicode_alnum header_re line with
          | Some m =>
              let func_name := group 2 m in
              match FUNCTION_MAP !! func_name with
              | Some target =>
                  let start := i in
                  let end_ := extent_end lines i in
                  find_loop fuel lines end_
                    (dict_set functions func_name (start, end_, target))
                    (log ++ [(func_name, start, end_, target)])
              | None => find_loop fuel lines (i + 1) functions log
              end
          | None => find_loop fuel lines (i + 1) functions log
          end
      end
  end.

Definition find_run (lines : list str)
  : option (list (str * extent) * list found) :=
  find_loop (S (length lines)) lines 0 [] [].

Definition find_functions (lines : list str) : list (str * extent) :=
  default [] (fst <$> find_run lines).

Definition find_functions_log (lines : list str) : list found :=
  default [] (snd <$> find_run lines).

(** [for func_name, (start, end, target_file) in functions.items():
      file_functions[target_file].append((func_name, start, end))] *)
Fixpoint aggregate (items : list (str * extent))
    (file_functions : file_key → list func)
    : error + (file_key → list func) :=
  match items with
  | [] => inr file_functions
  | (func_name, (start, end_, target_file)) :: items' =>
      match key_of_name target_file with
      | None => inl (KeyError target_file)
      | Some k =>
          aggregate items'
            (<[k := file_functions k ++ [(func_name, start, end_)]]>
               file_functions)
      end
  end.

(** [l.sort(key=lambda x: x[1])]. Python's sort is stable, and the stable
    sorted arrangement of a list is unique: insertion sort, which is
    stable, computes it. (On the lists the script sorts the starts are
    distinct and any sort gives the same list: [partition_sort_unique].) *)
Fixpoint insert_by_start (x : func) (l : list func) : list func :=
  match l with
  | [] => [x]
  | y :: l' =>
      if x.1.2 <=? y.1.2 then x :: l else y :: insert_by_start x l'
  end.

Fixpoint sort_by_start (l : list func) : list func :=
  match l with
  | [] => []
  | x :: l' => insert_by_start x (sort_by_start l')
  end.

(** [''.join(lines[start:end])] followed by the newline written after it. *)
Definition func_text (lines : list str) (start end_ : nat) : str :=
  join (slice lines start end_) ++ nl.

(** What is written to [codegen_<file_key>.cpp]. *)
Definition partition_text (lines : list str) (file_key : file_key)
    (funcs : list func) : str :=
  headers file_key
  ++ (lit "#include " ++ dquote ++ lit "codegen.h" ++ dquote ++ nl)
  ++ (lit "#include <iostream>" ++ nl ++ nl)
  ++ (lit "namespace pawc {" ++ nl ++ nl)
  ++ concat ((λ f : func, func_text lines f.1.2 f.2) <$> funcs)
  ++ namespace_close.

(** The emission loop: the files written, in order; a key without
    functions is skipped. *)
Definition emit_partitions (lines : list str)
    (file_functions : file_key → list func) : list (str * str) :=
  file_keys ≫= (λ file_key,
    match file_functions file_key with
    | [] => []
    | funcs => [(filename file_key, partition_text lines file_key funcs)]
    end).

(** The first loop of the reduced file: the lines written before the
    [break]. *)
Fixpoint preamble (lines : list str) : list str :=
  match lines with
  | [] => []
  | line :: lines' =>
      match re_match unicode_alnum prefix_re line with
      | Some _ => []
      | None => line :: preamble lines'
      end
  end.

(** The loop over [keep_functions]. *)
Definition kept_text (lines : list str) (functions : list (str * extent))
    (func_name : str) : str :=
  match dict_get functions func_name with
  | Some (start, end_, _) => func_text lines start end_
  | None => []
  end.

(** What is written to [codegen_new.cpp]. *)
Definition reduced_text (lines : list str)
    (functions : list (str * extent)) : str :=
  join (preamble lines)
  ++ concat (kept_text lines functions <$> keep_functions)
  ++ namespace_close.

(** The partitions after the sort. *)
Definition sorted_partitions (file_functions : file_key → list func)
  : file_key → list func :=
  λ k, sort_by_start (file_functions k).

(** Everything the script writes for the lines it has read, or the error
    that stops it before the first write. *)
Definition outputs (lines : list str) : error + list (str * str) :=
  let functions := find_functions lines in
  match aggregate functions (λ _, []) with
  | inl e => inl e
  | inr file_functions =>
      inr (emit_partitions lines (sorted_partitions file_functions)
           ++ [(reduced_path, reduced_text lines functions)])
  end.

(** [open(path, 'w')] and the writes until the file is closed. *)
Definition write_file (fs : gmap str str) (w : str * str) : gmap str str :=
  <[w.1 := w.2]> fs.

(** The script, on the file system it is run in. *)
Definition main (fs : gmap str str) : error + gmap str str :=
  match fs !! input_path with
  | None => inl FileNotFoundError
  | Some text =>
      match outputs (readlines text) with
      | inl e => inl e
      | inr ws => inr (foldl write_file fs ws)
      end
  end.

(** ** The vocabulary of the statements *)

Definition opens (line : str) : Z := Z.of_nat (count lbrace line).
Definition closes (line : str) : Z := Z.of_nat (count rbrace line).

(** Opening minus closing braces over the scanned lines [ls]. *)
Definition depth (ls : list str) : Z :=
  foldr (λ line d, opens line - closes line + d)%Z 0%Z ls.

(** Some scanned line holds an opening brace. *)
Definition opened (ls : list str) : bool := existsb (contains lbrace) ls.

(** The loop, entered with [brace_count] and [in_function], breaks at the
    [k]-th line of [rest]. *)
Definition closes_at (brace_count : Z) (in_function : bool)
    (rest : list str) (k : nat) : Prop :=
  in_function || opened (take (S k) rest) = true
  ∧ (brace_count + depth (take (S k) rest))%Z = 0%Z.

Definition balanced_at (rest : list str) (k : nat) : Prop :=
  opened (take (S k) rest) = true ∧ depth (take (S k) rest) = 0%Z.

(** The [functions] entry a discovery assigns. *)
Definition to_item (r : found) : str * extent :=
  (r.1.1.1, (r.1.1.2, r.1.2, r.2)).

Definition assign (functions : list (str * extent)) (r : found)
  : list (str * extent) :=
  dict_set functions (to_item r).1 (to_item r).2.

(** What holds of the discoveries made from line [lo] on: each starts at
    a header whose name is in the table, ends where the brace loop says,
    and the next one starts at or after its end. *)
Fixpoint chain (lines : list str) (lo : nat) (log : list found) : Prop :=
  match log with
  | [] => True
  | (func_name, start, end_, target) :: log' =>
      lo ≤ start ∧ start < end_ ≤ length lines
      ∧ end_ = extent_end lines start
      ∧ FUNCTION_MAP !! func_name = Some target
      ∧ (∃ line m, lines !! start = Some line
           ∧ re_match unicode_alnum header_re line = Some m
           ∧ func_name = group 2 m)
      ∧ chain lines end_ log'
  end.

Definition found_name (r : found) : str := r.1.1.1.
Definition found_start (r : found) : nat := r.1.1.2.
Definition found_end (r : found) : nat := r.1.2.
Definition found_target (r : found) : str := r.2.

(** The last discovery of [func_name]. *)
Definition last_occurrence (func_name : str) (log : list found)
  : option extent :=
  (λ r, (to_item r).2) <$> last (filter (λ r, found_name r = func_name) log).

Definition item_start (x : str * extent) : nat := x.2.1.1.
Definition item_end (x : str * extent) : nat := x.2.1.2.

(** The functions of [items] whose target names the key [k], in the
    order of [items]. *)
Definition members (k : file_key) (items : list (str * extent)) : list func :=
  omap (λ x : str * extent,
          if decide (x.2.2 = key_name k)
          then Some (x.1, item_start x, item_end x) else None) items.

Definition func_start (f : func) : nat := f.1.2.
Definition by_start (f g : func) : Prop := f.1.2 ≤ g.1.2.

(** What the last write to [path] among [ws] leaves in it. *)
Definition last_write (ws : list (str * str)) (path : str) : option str :=
  snd <$> last (filter (λ w, w.1 = path) ws).

Definition is_output_path (path : str) : Prop :=
  path = reduced_path ∨ ∃ k, path = filename k.

(** ** The claims that the code does not meet, as they are stated *)

(** C1: the end-to-end expectation on the files [ws] written: the file
    of f's category holds f's text and not g's, the file of g's category
    holds g's text and not f's, and the reduced file starts with the
    preamble and holds g's text and not f's. *)
Definition end_to_end (ws : list (str * str)) (path_f path_g : str)
    (pre f_text g_text : str) : Prop :=
  (∃ text, (path_f, text) ∈ ws
           ∧ substring f_text text = true ∧ substring g_text text = false)
  ∧ (∃ text, (path_g, text) ∈ ws
             ∧ substring g_text text = true ∧ substring f_text text = false)
  ∧ (∃ text, (reduced_path, text) ∈ ws
             ∧ starts_with pre text = true
             ∧ substring g_text text = true ∧ substring f_text text = false).

(** C2: braces on the scanned lines [pre] ahead of the first opening
    brace do not change where the extent ends. *)
Definition early_braces_ignored : Prop :=
  ∀ (header : str) (pre rest : list str),
    Forall (λ line, contains lbrace line = false) pre →
    extent_end (header :: pre ++ rest) 0
    = extent_end
        (header :: (filter (λ c, c ≠ rbrace) <$> pre) ++ rest) 0.

(** C4: the text of every occurrence discovered is in a partition file. *)
Definition every_occurrence_emitted : Prop :=
  ∀ lines ws r,
    outputs lines = inr ws → r ∈ find_functions_log lines →
    ∃ path text, (path, text) ∈ ws ∧ path ≠ reduced_path
      ∧ substring (join (slice lines (found_start r) (found_end r))) text
        = true.

(** C5: the lines ahead of the first line that the scanner's pattern
    takes for a function-definition header. *)
Fixpoint header_preamble (lines : list str) : list str :=
  match lines with
  | [] => []
  | line :: lines' =>
      match re_match unicode_alnum header_re line with
      | Some _ => []
      | None => line :: header_preamble lines'
      end
  end.

Definition reduced_starts_with_header_preamble : Prop :=
  ∀ lines,
    starts_with (join (header_preamble lines))
      (reduced_text lines (find_functions lines)) = true.

(** What the script writes for [ex_lines] under its own configuration. *)
Definition ex_ws : list (str * str) :=
  [ (filename Stmt,
     partition_text ex_lines Stmt
       [(lit "generateStmt", 1, 7); (lit "generateLetStmt", 14, 17)]);
    (filename Expr, partition_text ex_lines Expr [(lit "generateExpr", 11, 14)]);
    (reduced_path, join (take 1 ex_lines) ++ namespace_close) ].

(** ** More vocabulary *)

(** The language of a pattern with what its groups capture: [lang_caps r w
    caps] when [r] matches [w] from end to end and captures [caps], in
    the order in which the groups close. *)
Fixpoint lang_caps (r : regex) (w : str) (caps : list str) : Prop :=
  match r with
  | Lit p => w = p ∧ caps = []
  | WordPlus =>
      (w ≠ [] ∧ Forall (λ c, is_word unicode_alnum c = true) w) ∧ caps = []
  | Alt r1 r2 => lang_caps r1 w caps ∨ lang_caps r2 w caps
  | Seq r1 r2 =>
      ∃ w1 w2 c1 c2, w = w1 ++ w2 ∧ caps = c1 ++ c2
                     ∧ lang_caps r1 w1 c1 ∧ lang_caps r2 w2 c2
  | Group r1 => ∃ c, caps = c ++ [w] ∧ lang_caps r1 w c
  end.

(** A line made of a return type, [ CodeGenerator::], a name, an opening
    parenthesis and anything. *)
Definition header_line (rt name rest : str) : str :=
  rt ++ lit " CodeGenerator::" ++ name ++ lit "(" ++ rest.

Definition word (w : str) : Prop :=
  w ≠ [] ∧ Forall (λ c, is_word unicode_alnum c = true) w.

(** * Properties *)

(** ** The matcher and the language of a pattern *)

Lemma strip_prefix_spec p : ∀ s s', strip_prefix p s = Some s' ↔ s = p ++ s'.
Proof.
  induction p as [|a p IH]; intros s s'; cbn.
  - split; [by intros [= ->]|by intros ->].
  - destruct s as [|b s]; [done|]. case_decide as Hab.
    + subst. rewrite IH. split; [by intros ->|by intros [= ->]].
    + split; [done|]. by intros [= -> _].
Qed.

Lemma word_plus_spec s : ∀ s',
  s' ∈ word_plus unicode_alnum s ↔
  ∃ w, w ≠ [] ∧ Forall (λ c, is_word unicode_alnum c = true) w ∧ s = w ++ s'.
Proof.
  induction s as [|c s IH]; intros s'; cbn.
  - rewrite elem_of_nil. split; [done|].
    intros (w & Hw & _ & Hnil). by destruct w.
  - destruct (is_word unicode_alnum c) eqn:Hc.
    + rewrite elem_of_app, list_elem_of_singleton, IH. split.
      * intros [(w & _ & Hword & ->)| ->].
        -- exists (c :: w). split; [done|]. split; [by constructor|done].
        -- exists [c]. split; [done|]. split; [by repeat constructor|done].
      * intros (w & Hw & Hword & Heq). destruct w as [|c' w]; [done|].
        injection Heq as <- ->. apply Forall_cons in Hword as [_ Hword].
        destruct w as [|c' w]; [by right|]. left. by exists (c' :: w).
    + rewrite elem_of_nil. split; [done|].
      intros (w & Hw & Hword & Heq). destruct w as [|c' w]; [done|].
      injection Heq as <- ->. apply Forall_cons in Hword as [Hc' _]. congruence.
Qed.

(** The matcher finds a way to match a prefix of [s] that leaves [s'] when
    and only when that prefix is in the language of the pattern. *)
Lemma rmatch_lang r : ∀ caps s s',
  (∃ caps', (caps', s') ∈ rmatch unicode_alnum r caps s) ↔
  ∃ w, s = w ++ s' ∧ lang unicode_alnum r w.
Proof.
  induction r as [p| |r1 IH1 r2 IH2|r1 IH1 r2 IH2|r1 IH1]; intros caps s s';
    cbn [rmatch lang].
  - destruct (strip_prefix p s) as [s0|] eqn:Hs0.
    + apply strip_prefix_spec in Hs0 as ->. split.
      * intros (caps' & [= -> ->]%list_elem_of_singleton). by exists p.
      * intros (w & Heq & ->). apply app_inv_head in Heq as ->.
        exists caps. by apply list_elem_of_singleton.
    + split; [by intros (caps' & ?%elem_of_nil)|].
      intros (w & -> & ->). by rewrite (proj2 (strip_prefix_spec _ _ _) eq_refl) in Hs0.
  - split.
    + intros (caps' & (s0 & [= -> ->] & Hin)%list_elem_of_fmap).
      apply word_plus_spec in Hin as (w & ? & ? & ->). by exists w.
    + intros (w & -> & ? & ?). exists caps. apply list_elem_of_fmap.
      exists s'. split; [done|]. apply word_plus_spec. by exists w.
  - setoid_rewrite elem_of_app. split.
    + intros (caps' & [Hin|Hin]).
      * destruct (proj1 (IH1 caps s s')) as (w & ? & ?); [by eauto|].
        exists w. auto.
      * destruct (proj1 (IH2 caps s s')) as (w & ? & ?); [by eauto|].
        exists w. auto.
    + intros (w & Hs & [Hw|Hw]).
      * destruct (proj2 (IH1 caps s s')) as (caps' & ?); [by eauto|]. eauto.
      * destruct (proj2 (IH2 caps s s')) as (caps' & ?); [by eauto|]. eauto.
  - setoid_rewrite list_elem_of_bind. split.
    + intros (caps' & [c1 s1] & Hin2 & Hin1). cbn [fst snd] in Hin2.
      destruct (proj1 (IH1 caps s s1)) as (w1 & -> & ?); [by eauto|].
      destruct (proj1 (IH2 c1 s1 s')) as (w2 & -> & ?); [by eauto|].
      exists (w1 ++ w2). rewrite <-app_assoc. split; [done|]. by exists w1, w2.
    + intros (w & -> & w1 & w2 & -> & Hw1 & Hw2). rewrite <-app_assoc.
      destruct (proj2 (IH1 caps (w1 ++ w2 ++ s') (w2 ++ s')))
        as (c1 & Hin1); [by eauto|].
      destruct (proj2 (IH2 c1 (w2 ++ s') s')) as (caps' & Hin2); [by eauto|].
      exists caps', (c1, w2 ++ s'). done.
  - rewrite <-IH1. split.
    + intros (caps' & ([c1 s1] & [= -> ->] & Hin)%list_elem_of_fmap). eauto.
    + intros (c1 & Hin). eexists. apply list_elem_of_fmap.
      exists (c1, s'). split; [reflexivity|done].
Qed.

(** [re.match] succeeds on the strings that start with a string of the
    language. *)
Lemma re_match_lang r s :
  is_Some (re_match unicode_alnum r s) ↔
  ∃ w s', s = w ++ s' ∧ lang unicode_alnum r w.
Proof.
  unfold re_match. split.
  - destruct (rmatch unicode_alnum r [] s) as [|[caps' s'] l] eqn:Hl;
      [by intros [? ?]|]. intros _.
    destruct (proj1 (rmatch_lang r [] s s')) as (w & ? & ?);
      [exists caps'; rewrite Hl; left|]. by exists w, s'.
  - intros (w & s' & Hs & Hw).
    destruct (proj2 (rmatch_lang r [] s s')) as (caps' & Hin); [by eauto|].
    destruct (rmatch unicode_alnum r [] s); [by apply elem_of_nil in Hin|].
    by eauto.
Qed.

Lemma lang_prefix_re w :
  lang unicode_alnum prefix_re w ↔
  ∃ rt, return_type unicode_alnum rt ∧ w = rt ++ lit " CodeGenerator::".
Proof.
  unfold prefix_re, return_type. cbn [lang]. split.
  - intros (rt & w2 & -> & Hrt & ->). exists rt. split; [|done].
    destruct Hrt as [(w1 & w2 & -> & -> & w3 & w4 & -> & [? ?] & ->)|Hrt];
      [left; by exists w3|by right].
  - intros (rt & Hrt & ->). exists rt, (lit " CodeGenerator::").
    split; [done|]. split; [|done].
    destruct Hrt as [(w & Hw & Hword & ->)|Hrt]; [left|by right].
    exists (lit "llvm::"), (w ++ lit "*"). split; [done|]. split; [done|].
    by exists w, (lit "*").
Qed.

(** The lines that end the preamble: a return type, then
    [ CodeGenerator::], then anything. *)
Lemma prefix_re_shape line :
  is_Some (re_match unicode_alnum prefix_re line) ↔
  ∃ rt rest, return_type unicode_alnum rt
             ∧ line = rt ++ lit " CodeGenerator::" ++ rest.
Proof.
  rewrite re_match_lang. setoid_rewrite lang_prefix_re. split.
  - intros (w & rest & -> & rt & Hrt & ->).
    exists rt, rest. by rewrite <-app_assoc.
  - intros (rt & rest & Hrt & ->).
    exists (rt ++ lit " CodeGenerator::"), rest. rewrite <-app_assoc.
    split; [done|]. by exists rt.
Qed.

(** The lines that the scanner takes for headers: a return type,
    [ CodeGenerator::], a name, an opening parenthesis, then anything. *)
Lemma header_re_shape line :
  is_Some (re_match unicode_alnum header_re line) ↔
  ∃ rt name rest,
    return_type unicode_alnum rt
    ∧ name ≠ [] ∧ Forall (λ c, is_word unicode_alnum c = true) name
    ∧ line = rt ++ lit " CodeGenerator::" ++ name ++ lit "(" ++ rest.
Proof.
  rewrite re_match_lang. unfold header_re. cbn [lang].
  setoid_rewrite lang_prefix_re. split.
  - intros (w & rest & -> & w1 & w2 & -> & (rt & Hrt & ->)
            & name & w3 & -> & [? ?] & ->).
    exists rt, name, rest. by rewrite <-!app_assoc.
  - intros (rt & name & rest & Hrt & Hname & Hword & ->).
    exists (rt ++ lit " CodeGenerator::" ++ name ++ lit "("), rest.
    rewrite <-!app_assoc. split; [done|].
    exists (rt ++ lit " CodeGenerator::"), (name ++ lit "(").
    rewrite <-!app_assoc. split; [done|]. split; [by exists rt|].
    by exists name, (lit "(").
Qed.

(** ** The brace loop, in the words of its contract *)

Lemma count_absent c line : contains c line = false → count c line = 0.
Proof.
  unfold contains, count. intros H%bool_decide_eq_false.
  induction line as [|x line IH]; [done|].
  rewrite filter_cons. case_decide as Hx.
  - subst. exfalso. apply H. left.
  - apply IH. intros Hin. apply H. by right.
Qed.

Lemma scan_body_cons line rest j brace_count in_function :
  scan_body (line :: rest) j brace_count in_function =
  let brace_count' := (brace_count + opens line - closes line)%Z in
  let in_function' := in_function || contains lbrace line in
  if in_function' && bool_decide (brace_count' = 0%Z) then Some (j + 1)
  else scan_body rest (j + 1) brace_count' in_function'.
Proof.
  cbn [scan_body]. unfold opens, closes.
  destruct (contains lbrace line) eqn:Ho, (contains rbrace line) eqn:Hc;
    rewrite ?orb_true_r, ?orb_false_r;
    try rewrite (count_absent _ _ Ho); try rewrite (count_absent _ _ Hc);
    rewrite ?Z.add_0_r, ?Z.sub_0_r; reflexivity.
Qed.

Lemma closes_at_0 brace_count in_function line rest :
  closes_at brace_count in_function (line :: rest) 0 ↔
  (in_function || contains lbrace line)
  && bool_decide ((brace_count + opens line - closes line)%Z = 0%Z) = true.
Proof.
  unfold closes_at. cbn. rewrite take_0, orb_false_r, andb_true_iff.
  rewrite bool_decide_eq_true. cbn. intuition lia.
Qed.

Lemma closes_at_S brace_count in_function line rest k :
  closes_at brace_count in_function (line :: rest) (S k) ↔
  closes_at (brace_count + opens line - closes line)
    (in_function || contains lbrace line) rest k.
Proof.
  unfold closes_at. cbn [take opened existsb depth foldr].
  fold (opened (take (S k) rest)). fold (depth (take (S k) rest)).
  rewrite orb_assoc. intuition lia.
Qed.

(** The loop breaks at the first line at which an opening brace has been
    seen and the count is zero, and nowhere else. *)
Lemma scan_body_spec rest : ∀ j brace_count in_function e,
  scan_body rest j brace_count in_function = Some e ↔
  ∃ k, e = j + k + 1 ∧ k < length rest
       ∧ closes_at brace_count in_function rest k
       ∧ ∀ k', k' < k → ¬ closes_at brace_count in_function rest k'.
Proof.
  induction rest as [|line rest IH]; intros j bc inf e.
  - split; [done|]. intros (k & _ & Hk & _). cbn in Hk. lia.
  - rewrite scan_body_cons. cbv zeta.
    destruct (_ && _) eqn:Htest.
    + apply (proj2 (closes_at_0 bc inf line rest)) in Htest. split.
      * intros [= <-]. exists 0. cbn [length].
        split; [lia|]. split; [lia|]. split; [done|]. intros k' Hk'. lia.
      * intros (k & -> & _ & _ & Hmin). destruct k as [|k]; [f_equal; lia|].
        destruct (Hmin 0); [lia|done].
    + assert (¬ closes_at bc inf (line :: rest) 0) as Hn0.
      { rewrite closes_at_0, Htest. done. }
      rewrite IH. split.
      * intros (k & -> & Hk & Hc & Hmin). exists (S k). cbn [length].
        split; [lia|]. split; [lia|]. split; [by apply closes_at_S|].
        intros [|k'] Hk'; [done|]. rewrite closes_at_S. apply Hmin. lia.
      * intros (k & -> & Hk & Hc & Hmin). destruct k as [|k]; [done|].
        exists k. cbn [length] in Hk.
        split; [lia|]. split; [lia|]. split; [by apply closes_at_S|].
        intros k' Hk'. rewrite <-closes_at_S. apply Hmin. lia.
Qed.

(** It runs into its [else] when there is no such line. *)
Lemma scan_body_none rest : ∀ j brace_count in_function,
  scan_body rest j brace_count in_function = None ↔
  ∀ k, k < length rest → ¬ closes_at brace_count in_function rest k.
Proof.
  induction rest as [|line rest IH]; intros j bc inf.
  - split; [|done]. intros _ k Hk. cbn in Hk. lia.
  - rewrite scan_body_cons. cbv zeta. destruct (_ && _) eqn:Htest.
    + apply (proj2 (closes_at_0 bc inf line rest)) in Htest. split; [done|].
      intros H. destruct (H 0); [cbn; lia|done].
    + rewrite IH. split.
      * intros H [|k] Hk; [rewrite closes_at_0, Htest; done|].
        rewrite closes_at_S. apply H. cbn in Hk. lia.
      * intros H k Hk. rewrite <-closes_at_S. apply H. cbn. lia.
Qed.

Lemma closes_at_initial rest k : closes_at 0 false rest k ↔ balanced_at rest k.
Proof. unfold closes_at, balanced_at. rewrite orb_false_l, Z.add_0_l. done. Qed.

Lemma scan_body_lower rest j brace_count in_function e :
  scan_body rest j brace_count in_function = Some e →
  j + 1 ≤ e ≤ j + length rest.
Proof. rewrite scan_body_spec. intros (k & -> & Hk & _). lia. Qed.

(** ** The scanner *)

Lemma chain_weaken lines lo lo' log :
  lo ≤ lo' → chain lines lo' log → chain lines lo log.
Proof.
  destruct log as [|[[[n s] e] t] log]; [done|]. cbn.
  intros Hlo (? & ? & ?). split; [lia|done].
Qed.

Lemma extent_end_bounds lines i :
  i < length lines → i < extent_end lines i ≤ length lines.
Proof.
  intros Hi. unfold extent_end.
  destruct (scan_body _ _ _ _) as [e|] eqn:He; cbn; [|lia].
  apply scan_body_lower in He. rewrite length_drop in He. lia.
Qed.

Lemma find_loop_spec lines fuel : ∀ i functions log functions' log',
  find_loop fuel lines i functions log = Some (functions', log') →
  ∃ new, log' = log ++ new
         ∧ functions' = foldl assign functions new
         ∧ chain lines i new.
Proof.
  induction fuel as [|fuel IH]; intros i fns log fns' log'; [done|].
  cbn [find_loop].
  destruct (lines !! i) as [line|] eqn:Hline.
  2:{ intros [= <- <-]. exists []. by rewrite app_nil_r. }
  assert (∀ new, chain lines (i + 1) new → chain lines i new) as Hskip.
  { intros new. apply chain_weaken. lia. }
  destruct (re_match _ _ _) as [m|] eqn:Hm.
  2:{ intros (new & ? & ? & ?)%IH. exists new. auto. }
  destruct (FUNCTION_MAP !! group 2 m) as [target|] eqn:Htarget.
  2:{ intros (new & ? & ? & ?)%IH. exists new. auto. }
  intros (new & -> & -> & Hchain)%IH.
  exists ((group 2 m, i, extent_end lines i, target) :: new).
  rewrite <-app_assoc. split; [done|]. split; [done|].
  apply lookup_lt_Some in Hline as Hi.
  cbn. split; [lia|]. split; [by apply extent_end_bounds|].
  split; [done|]. split; [done|]. split; [|done]. eauto.
Qed.

(** One unit of fuel per remaining line, and one to leave the loop, is
    enough. *)
Lemma find_loop_total lines fuel : ∀ i functions log,
  length lines - i < fuel →
  is_Some (find_loop fuel lines i functions log).
Proof.
  induction fuel as [|fuel IH]; intros i fns log Hfuel; [lia|].
  cbn [find_loop].
  destruct (lines !! i) as [line|] eqn:Hline; [|done].
  apply lookup_lt_Some in Hline as Hi.
  destruct (re_match _ _ _) as [m|]; [|apply IH; lia].
  destruct (FUNCTION_MAP !! _); [|apply IH; lia].
  apply IH. pose proof (extent_end_bounds lines i Hi). lia.
Qed.

(** The scanner returns: the fuel [find_run] gives is never used up. *)
Lemma find_run_total lines :
  find_run lines = Some (find_functions lines, find_functions_log lines).
Proof.
  unfold find_functions, find_functions_log.
  destruct (find_loop_total lines (S (length lines)) 0 [] []) as [[f l] H];
    [lia|].
  unfold find_run in *. rewrite H. done.
Qed.

Lemma find_functions_spec lines :
  find_functions lines = foldl assign [] (find_functions_log lines)
  ∧ chain lines 0 (find_functions_log lines).
Proof.
  pose proof (find_run_total lines) as H. unfold find_run in H.
  apply find_loop_spec in H as (new & -> & -> & ?). done.
Qed.

(** ** Dictionaries *)

Section dict_facts.
Context {V : Type}.
Implicit Types (d : list (str * V)) (k : str) (v : V).

Lemma dict_get_set d k v k' :
  dict_get (dict_set d k v) k' =
  if decide (k = k') then Some v else dict_get d k'.
Proof.
  induction d as [|[k0 v0] d IH]; cbn.
  - repeat case_decide; congruence.
  - repeat (case_decide; cbn); congruence.
Qed.

Lemma dict_set_elem d k v x :
  x ∈ dict_set d k v → x = (k, v) ∨ x ∈ d.
Proof.
  induction d as [|[k0 v0] d IH]; cbn.
  - intros ->%list_elem_of_singleton. by left.
  - case_decide.
    + intros [->|?]%elem_of_cons; [by left|]. right. by right.
    + intros [->|[->|?]%IH]%elem_of_cons;
        [right; left|by left|right; by right].
Qed.

Lemma dict_set_keys d k v k' :
  k' ∈ (dict_set d k v).*1 ↔ k' = k ∨ k' ∈ d.*1.
Proof.
  induction d as [|[k0 v0] d IH]; cbn.
  - rewrite list_elem_of_singleton, elem_of_nil. tauto.
  - case_decide; subst; cbn; rewrite !elem_of_cons; [tauto|].
    rewrite IH. tauto.
Qed.

Lemma dict_set_NoDup d k v : NoDup d.*1 → NoDup (dict_set d k v).*1.
Proof.
  induction d as [|[k0 v0] d IH]; cbn.
  - intros _. apply NoDup_singleton.
  - rewrite NoDup_cons. intros [Hk0 Hd]. case_decide; subst; cbn.
    + by apply NoDup_cons.
    + apply NoDup_cons. split; [|auto].
      rewrite dict_set_keys. intros [?|?]; congruence.
Qed.

Lemma dict_get_elem d k v : dict_get d k = Some v → (k, v) ∈ d.
Proof.
  induction d as [|[k0 v0] d IH]; cbn; [done|].
  case_decide; subst.
  - intros [= ->]. left.
  - intros ?. right. auto.
Qed.

Lemma dict_elem_get d k v :
  NoDup d.*1 → (k, v) ∈ d → dict_get d k = Some v.
Proof.
  induction d as [|[k0 v0] d IH]; cbn.
  - by intros _ ?%elem_of_nil.
  - rewrite NoDup_cons. intros [Hk0 Hd] [[= -> ->]|Hin]%elem_of_cons.
    + by rewrite decide_True.
    + rewrite decide_False; [auto|].
      intros ->. apply Hk0. by apply (list_elem_of_fmap_2 fst) in Hin.
Qed.
End dict_facts.

(** ** The scan result as a function of the discoveries *)

Lemma foldl_assign_NoDup log : ∀ functions,
  NoDup functions.*1 → NoDup (foldl assign functions log).*1.
Proof.
  induction log as [|r log IH]; intros fns Hfns; [done|].
  cbn. apply IH. by apply dict_set_NoDup.
Qed.

Lemma foldl_assign_elem log : ∀ functions x,
  x ∈ foldl assign functions log →
  x ∈ functions ∨ ∃ r, r ∈ log ∧ x = to_item r.
Proof.
  induction log as [|r log IH]; intros fns x; cbn; [by left|].
  intros [[->|?]%dict_set_elem|(r' & ? & ->)]%IH.
  - right. exists r. split; [left|]. by destruct r as [[[? ?] ?] ?].
  - by left.
  - right. exists r'. split; [by right|done].
Qed.

Lemma foldl_assign_get log func_name : ∀ functions,
  dict_get (foldl assign functions log) func_name =
  match last_occurrence func_name log with
  | Some x => Some x
  | None => dict_get functions func_name
  end.
Proof.
  unfold last_occurrence.
  induction log as [|r log IH] using rev_ind; intros fns; [done|].
  rewrite foldl_snoc, filter_app. unfold assign at 1.
  rewrite dict_get_set, filter_cons, filter_nil.
  change (to_item r).1 with (found_name r).
  case_decide; cbn.
  - by rewrite last_snoc.
  - rewrite app_nil_r. apply IH.
Qed.

Lemma chain_elem lines log : ∀ lo r,
  chain lines lo log → r ∈ log →
  lo ≤ found_start r ∧ found_start r < found_end r ≤ length lines
  ∧ found_end r = extent_end lines (found_start r)
  ∧ FUNCTION_MAP !! found_name r = Some (found_target r).
Proof.
  induction log as [|[[[n s] e] t] log IH]; intros lo r.
  - by intros _ ?%elem_of_nil.
  - cbn [chain]. intros (? & ? & ? & ? & _ & Hchain) [->|Hin]%elem_of_cons.
    + done.
    + destruct (IH _ _ Hchain Hin) as (? & ? & ?). split; [lia|done].
Qed.

Lemma chain_header lines log : ∀ lo r,
  chain lines lo log → r ∈ log →
  ∃ line, lines !! found_start r = Some line
          ∧ is_Some (re_match unicode_alnum header_re line).
Proof.
  induction log as [|[[[n s] e] t] log IH]; intros lo r.
  - by intros _ ?%elem_of_nil.
  - cbn [chain].
    intros (_ & _ & _ & _ & (line & m & ? & ? & _) & Hchain) [->|Hin]%elem_of_cons.
    + exists line. eauto.
    + by apply (IH _ _ Hchain).
Qed.

(** In discovery order every extent ends before the later ones start. *)
Lemma chain_sorted lines log : ∀ lo,
  chain lines lo log →
  StronglySorted (λ r1 r2, found_end r1 ≤ found_start r2) log.
Proof.
  induction log as [|[[[n s] e] t] log IH]; intros lo; [constructor|].
  cbn [chain]. intros (? & ? & ? & ? & _ & Hchain).
  constructor; [eauto|]. apply Forall_forall. intros r Hin.
  apply (chain_elem _ _ _ _ Hchain) in Hin as [? _]. done.
Qed.

Lemma StronglySorted_elem {A} (R : A → A → Prop) l x y :
  StronglySorted R l → x ∈ l → y ∈ l → x ≠ y → R x y ∨ R y x.
Proof.
  induction 1 as [|a l Hl IH Ha]; [by intros ?%elem_of_nil|].
  rewrite Forall_forall in Ha.
  intros [->|Hx]%elem_of_cons [->|Hy]%elem_of_cons Hne; auto; done.
Qed.

Lemma find_functions_in_log lines x :
  x ∈ find_functions lines →
  ∃ r, r ∈ find_functions_log lines ∧ x = to_item r.
Proof.
  destruct (find_functions_spec lines) as [-> _].
  intros [?%elem_of_nil|?]%foldl_assign_elem; done.
Qed.

Lemma log_bounds lines r :
  r ∈ find_functions_log lines →
  found_start r < found_end r ≤ length lines.
Proof.
  destruct (find_functions_spec lines) as [_ Hchain]. intros Hr.
  by apply (chain_elem _ _ _ _ Hchain) in Hr as (_ & ? & _).
Qed.

Lemma log_sorted lines :
  StronglySorted (λ r1 r2, found_end r1 ≤ found_start r2)
    (find_functions_log lines).
Proof.
  destruct (find_functions_spec lines) as [_ Hchain].
  by apply chain_sorted in Hchain.
Qed.

Lemma items_bounds lines x :
  x ∈ find_functions lines → item_start x < item_end x ≤ length lines.
Proof. intros (r & Hr & ->)%find_functions_in_log. by apply log_bounds. Qed.

Lemma items_disjoint lines x y :
  x ∈ find_functions lines → y ∈ find_functions lines → x ≠ y →
  item_end x ≤ item_start y ∨ item_end y ≤ item_start x.
Proof.
  intros (r1 & Hr1 & ->)%find_functions_in_log
    (r2 & Hr2 & ->)%find_functions_in_log Hne.
  apply (StronglySorted_elem _ _ r1 r2 (log_sorted lines)); [done..|congruence].
Qed.

Lemma find_functions_NoDup lines : NoDup (find_functions lines).*1.
Proof.
  destruct (find_functions_spec lines) as [-> _].
  apply foldl_assign_NoDup. constructor.
Qed.

(** C6. Every record of the scanner has [start < end <= len(lines)]; in
    the order of discovery each extent ends at or before the start of
    every later one, so that extents never overlap and the starts never
    decrease; and every record the scanner returns is one it discovered. *)
Theorem scan_extents_ordered (lines : list str) :
  Forall (λ r, found_start r < found_end r ≤ length lines)
    (find_functions_log lines)
  ∧ StronglySorted (λ r1 r2, found_end r1 ≤ found_start r2)
      (find_functions_log lines)
  ∧ StronglySorted (λ r1 r2, found_start r1 ≤ found_start r2)
      (find_functions_log lines)
  ∧ Forall (λ x, item_start x < item_end x ≤ length lines
                 ∧ ∃ r, r ∈ find_functions_log lines ∧ x = to_item r)
      (find_functions lines)
  ∧ ∀ x y, x ∈ find_functions lines → y ∈ find_functions lines → x ≠ y →
      item_end x ≤ item_start y ∨ item_end y ≤ item_start x.
Proof.
  pose proof (log_sorted lines) as Hsorted.
  split; [apply Forall_forall, log_bounds|]. split; [done|]. split.
  { assert (∀ r, r ∈ find_functions_log lines →
                 found_start r < found_end r) as Hbounds.
    { intros r Hr. apply (log_bounds lines r Hr). }
    induction Hsorted as [|r l Hl IH Hr]; constructor.
    - apply IH. intros r' Hr'. apply Hbounds. by right.
    - apply Forall_forall. intros r' Hr'.
      rewrite Forall_forall in Hr. specialize (Hr _ Hr').
      assert (found_start r < found_end r) by (apply Hbounds; left). lia. }
  split; [|apply items_disjoint].
  apply Forall_forall. intros x Hx. split; [by apply items_bounds|].
  by apply find_functions_in_log.
Qed.

(** C9. A recorded extent that the brace loop closed (rather than the end
    of the input) spans the header line and at least one more line: the
    loop starts on the line after the header, and whatever the header
    line holds, braces included, the extent ends at the same line. *)
Theorem closed_extent_spans_two_lines (lines : list str) (x : str * extent) :
  x ∈ find_functions lines →
  (is_Some (scan_body (drop (item_start x + 1) lines) (item_start x + 1)
              0%Z false) →
   item_start x + 2 ≤ item_end x)
  ∧ ∀ header,
      extent_end (<[item_start x := header]> lines) (item_start x)
      = item_end x.
Proof.
  intros (r & Hr & ->)%find_functions_in_log.
  destruct (find_functions_spec lines) as [_ Hchain].
  apply (chain_elem _ _ _ _ Hchain) in Hr as (_ & _ & Hend & _).
  unfold item_start, item_end, to_item. cbn [fst snd].
  fold (found_start r) (found_end r). rewrite Hend. split.
  - intros [e He]. unfold extent_end. rewrite He. cbn.
    apply scan_body_lower in He. lia.
  - intros header. unfold extent_end.
    rewrite length_insert, drop_insert_lt by lia. done.
Qed.

(** C4, as the code has it. [functions] is keyed by name: it holds one
    record for each name, that of the last occurrence discovered, an
    earlier record of the same name being replaced. *)
Theorem one_record_per_name (lines : list str) :
  NoDup (find_functions lines).*1
  ∧ ∀ func_name,
      dict_get (find_functions lines) func_name
      = last_occurrence func_name (find_functions_log lines).
Proof.
  split; [apply find_functions_NoDup|].
  destruct (find_functions_spec lines) as [-> _].
  intros func_name. rewrite foldl_assign_get.
  by destruct (last_occurrence _ _).
Qed.

(** A name outside the table is in no record, and the reduced file keeps
    nothing for it, on the allow-list or not. *)
Lemma unclassified_never_recorded lines func_name :
  FUNCTION_MAP !! func_name = None →
  dict_get (find_functions lines) func_name = None
  ∧ kept_text lines (find_functions lines) func_name = [].
Proof.
  intros Hnone.
  assert (dict_get (find_functions lines) func_name = None) as Hget.
  { destruct (dict_get _ _) as [v|] eqn:Hv; [|done].
    apply dict_get_elem, find_functions_in_log in Hv as (r & Hr & Heq).
    destruct (find_functions_spec lines) as [_ Hchain].
    apply (chain_elem _ _ _ _ Hchain) in Hr as (_ & _ & _ & Hmap).
    injection Heq as -> _. unfold found_name in Hmap. congruence. }
  split; [done|]. unfold kept_text. by rewrite Hget.
Qed.

(** C2, as the code has it. The count moves on every scanned line (the
    lines after the header line), closing braces ahead of the first
    opening brace included; only the test that ends the extent waits for
    an opening brace. The extent ends at the first scanned line by which
    an opening brace has been seen and at which opening and closing
    braces so far are equal in number. *)
Theorem extent_ends_at_first_balance (rest : list str) (j e : nat) :
  scan_body rest j 0%Z false = Some e ↔
  ∃ k, e = j + k + 1 ∧ k < length rest ∧ balanced_at rest k
       ∧ ∀ k', k' < k → ¬ balanced_at rest k'.
Proof.
  rewrite scan_body_spec. setoid_rewrite closes_at_initial. done.
Qed.

(** ** The aggregator and the sort *)

Lemma key_of_name_spec s k : key_of_name s = Some k ↔ s = key_name k.
Proof.
  split.
  - unfold key_of_name, file_keys. cbn [find].
    repeat (case_bool_decide; [by intros [= <-]|]). done.
  - intros ->. by destruct k.
Qed.

Lemma members_cons k x items :
  members k (x :: items) =
  if decide (x.2.2 = key_name k)
  then (x.1, item_start x, item_end x) :: members k items
  else members k items.
Proof. unfold members. cbn. by case_decide. Qed.

Lemma aggregate_spec items : ∀ file_functions file_functions',
  aggregate items file_functions = inr file_functions' →
  ∀ k, file_functions' k = file_functions k ++ members k items.
Proof.
  induction items as [|[n [[st e] t]] items IH]; intros ff ff'.
  - intros [= <-] k. by rewrite app_nil_r.
  - cbn [aggregate]. destruct (key_of_name t) as [k0|] eqn:Hk0; [|done].
    intros Hagg k. rewrite (IH _ _ Hagg k).
    apply key_of_name_spec in Hk0 as ->.
    rewrite members_cons. cbn [fst snd].
    destruct (decide (k0 = k)) as [->|Hne].
    + rewrite fn_lookup_insert, decide_True by done.
      by rewrite <-app_assoc.
    + rewrite fn_lookup_insert_ne by done.
      rewrite decide_False; [done|].
      intros Heq. apply Hne. by destruct k0, k.
Qed.

Lemma insert_by_start_perm x l : insert_by_start x l ≡ₚ x :: l.
Proof.
  induction l as [|y l IH]; cbn; [done|].
  destruct (_ <=? _); [done|]. rewrite IH. apply Permutation_swap.
Qed.

Lemma sort_by_start_perm l : sort_by_start l ≡ₚ l.
Proof.
  induction l as [|x l IH]; cbn; [done|].
  by rewrite insert_by_start_perm, IH.
Qed.

Lemma insert_by_start_sorted x l :
  StronglySorted by_start l → StronglySorted by_start (insert_by_start x l).
Proof.
  induction 1 as [|y l Hl IH Hy]; cbn.
  - repeat constructor.
  - destruct (_ <=? _) eqn:Hle.
    + apply Nat.leb_le in Hle. constructor; [by constructor|].
      constructor; [done|]. eapply Forall_impl; [exact Hy|].
      unfold by_start. intros z ?. lia.
    + apply Nat.leb_gt in Hle. constructor; [done|].
      rewrite insert_by_start_perm. constructor; [|done].
      unfold by_start. lia.
Qed.

Lemma sort_by_start_sorted l : StronglySorted by_start (sort_by_start l).
Proof.
  induction l as [|x l IH]; cbn; [constructor|].
  by apply insert_by_start_sorted.
Qed.

Lemma emit_partitions_elem lines file_functions path text :
  (path, text) ∈ emit_partitions lines file_functions →
  ∃ k, file_functions k ≠ [] ∧ path = filename k
       ∧ text = partition_text lines k (file_functions k).
Proof.
  unfold emit_partitions. intros (k & Hin & _)%list_elem_of_bind.
  exists k. destruct (file_functions k) as [|f funcs]; [by apply elem_of_nil in Hin|].
  apply list_elem_of_singleton in Hin as [= -> ->]. done.
Qed.

Lemma outputs_spec lines ws :
  outputs lines = inr ws →
  ∃ file_functions,
    aggregate (find_functions lines) (λ _, []) = inr file_functions
    ∧ ws = emit_partitions lines (sorted_partitions file_functions)
           ++ [(reduced_path, reduced_text lines (find_functions lines))].
Proof.
  unfold outputs. destruct (aggregate _ _) as [e|ff]; [done|].
  intros [= <-]. eauto.
Qed.

(** C7. A partition file holds the functions assigned to its key, each
    once, and their texts follow one another by ascending start line. *)
Theorem partition_files_in_source_order (lines : list str)
    (ws : list (str * str)) (path text : str) :
  outputs lines = inr ws → (path, text) ∈ ws → path ≠ reduced_path →
  ∃ k funcs,
    path = filename k
    ∧ text = partition_text lines k funcs
    ∧ StronglySorted by_start funcs
    ∧ funcs ≡ₚ members k (find_functions lines).
Proof.
  intros (ff & Hagg & ->)%outputs_spec Hin Hpath.
  apply elem_of_app in Hin as [Hin|Hin].
  2:{ apply list_elem_of_singleton in Hin as [= -> _]. done. }
  apply emit_partitions_elem in Hin as (k & _ & -> & ->).
  exists k, (sorted_partitions ff k). unfold sorted_partitions.
  split; [done|]. split; [done|]. split; [apply sort_by_start_sorted|].
  rewrite sort_by_start_perm. by rewrite (aggregate_spec _ _ _ Hagg k).
Qed.

(** *** The sort of the interpreter

    The starts of the records are distinct, and a list with distinct
    starts has one sorted arrangement: whatever algorithm [list.sort]
    runs, its result on a partition is that of [sort_by_start]. *)

Lemma sorted_arrangement_unique (l1 : list func) : ∀ l2,
  NoDup (func_start <$> l1) → l1 ≡ₚ l2 →
  StronglySorted by_start l1 → StronglySorted by_start l2 → l1 = l2.
Proof.
  induction l1 as [|x l1 IH]; intros l2 Hnd Hperm Hs1 Hs2.
  - by apply Permutation_nil_l in Hperm.
  - destruct l2 as [|y l2]; [by apply Permutation_nil_r in Hperm|].
    apply StronglySorted_inv in Hs1 as [Hs1 Hx].
    apply StronglySorted_inv in Hs2 as [Hs2 Hy].
    rewrite fmap_cons, NoDup_cons in Hnd. destruct Hnd as [Hnotin Hnd].
    assert (x = y) as <-.
    { destruct (decide (x = y)) as [|Hne]; [done|]. exfalso.
      assert (x ∈ l2) as Hx2.
      { assert (x ∈ y :: l2) as [?|?]%elem_of_cons by (rewrite <-Hperm; left);
          done. }
      assert (y ∈ l1) as Hy1.
      { assert (y ∈ x :: l1) as [?|?]%elem_of_cons by (rewrite Hperm; left);
          done. }
      rewrite Forall_forall in Hx, Hy.
      specialize (Hx _ Hy1). specialize (Hy _ Hx2).
      apply Hnotin. replace (func_start x) with (func_start y)
        by (unfold by_start, func_start in *; lia).
      by apply list_elem_of_fmap_2. }
    f_equal. apply IH; [done| |done..].
    by apply Permutation_cons_inv in Hperm.
Qed.

Lemma find_functions_starts lines : NoDup (item_start <$> find_functions lines).
Proof.
  apply NoDup_fmap_2_strong.
  - intros x y Hx Hy Hstart.
    destruct (decide (x = y)) as [|Hne]; [done|]. exfalso.
    pose proof (items_bounds _ _ Hx). pose proof (items_bounds _ _ Hy).
    destruct (items_disjoint _ _ _ Hx Hy Hne); lia.
  - apply (NoDup_fmap_1 fst), find_functions_NoDup.
Qed.

Lemma members_starts k items :
  NoDup (item_start <$> items) → NoDup (func_start <$> members k items).
Proof.
  induction items as [|x items IH]; [constructor|].
  rewrite fmap_cons, NoDup_cons, members_cons. intros [Hx Hnd].
  case_decide; [|auto]. rewrite fmap_cons. apply NoDup_cons.
  split; [|auto]. intros (f & Hf & Hin)%list_elem_of_fmap. apply Hx.
  unfold members in Hin. apply list_elem_of_omap in Hin as (y & Hy & Hsome).
  case_decide; [|done]. injection Hsome as <-.
  cbn in Hf. rewrite Hf. by apply list_elem_of_fmap_2.
Qed.

Lemma partition_sort_unique lines k (sorted : list func) :
  sorted ≡ₚ members k (find_functions lines) →
  StronglySorted by_start sorted →
  sorted = sort_by_start (members k (find_functions lines)).
Proof.
  intros Hperm Hsorted. apply sorted_arrangement_unique.
  - rewrite Hperm. apply members_starts, find_functions_starts.
  - by rewrite sort_by_start_perm.
  - done.
  - apply sort_by_start_sorted.
Qed.

(** ** The files written *)

Lemma last_write_None ws path : path ∉ ws.*1 → last_write ws path = None.
Proof.
  unfold last_write. intros Hnot.
  induction ws as [|w ws IH]; [done|].
  rewrite filter_cons. rewrite fmap_cons, not_elem_of_cons in Hnot.
  rewrite decide_False by (intros <-; tauto). apply IH. tauto.
Qed.

Lemma foldl_write_lookup (ws : list (str * str)) path : ∀ fs : gmap str str,
  foldl write_file fs ws !! path =
  match last_write ws path with Some text => Some text | None => fs !! path end.
Proof.
  unfold last_write.
  induction ws as [|w ws IH] using rev_ind; intros fs; [done|].
  rewrite foldl_snoc, filter_app, filter_cons, filter_nil.
  unfold write_file at 1. case_decide as Hw.
  - rewrite last_snoc. cbn. rewrite Hw. apply lookup_insert_eq.
  - rewrite app_nil_r, lookup_insert_ne by done. apply IH.
Qed.

Lemma foldl_write_twice (ws : list (str * str)) (fs : gmap str str) :
  foldl write_file (foldl write_file fs ws) ws = foldl write_file fs ws.
Proof.
  apply map_eq. intros path. rewrite (foldl_write_lookup ws path (foldl _ _ _)).
  destruct (last_write ws path) eqn:Hlast; [|done].
  by rewrite foldl_write_lookup, Hlast.
Qed.

Lemma output_path_not_input path : is_output_path path → path ≠ input_path.
Proof. intros [->|[k ->]]; [done|]. by destruct k. Qed.

Lemma outputs_paths lines ws :
  outputs lines = inr ws → Forall (λ w, is_output_path w.1) ws.
Proof.
  intros (ff & _ & ->)%outputs_spec. apply Forall_app. split.
  - apply Forall_forall. intros [path text] (k & _ & -> & _)%emit_partitions_elem.
    right. by exists k.
  - constructor; [by left|constructor].
Qed.

Lemma main_spec (fs fs' : gmap str str) :
  main fs = inr fs' ↔
  ∃ text ws, fs !! input_path = Some text
             ∧ outputs (readlines text) = inr ws
             ∧ fs' = foldl write_file fs ws.
Proof.
  unfold main. split.
  - destruct (fs !! input_path) as [text|]; [|done].
    destruct (outputs _) as [e|ws] eqn:Hws; [done|]. intros [= <-]. eauto.
  - intros (text & ws & -> & -> & ->). done.
Qed.

Lemma main_frame (fs fs' : gmap str str) path :
  main fs = inr fs' → ¬ is_output_path path → fs' !! path = fs !! path.
Proof.
  intros (text & ws & _ & Hws%outputs_paths & ->)%main_spec Hpath.
  rewrite foldl_write_lookup, last_write_None; [done|].
  intros (w & -> & Hw)%list_elem_of_fmap. rewrite Forall_forall in Hws.
  by apply Hpath, Hws.
Qed.

Lemma main_keeps_input (fs fs' : gmap str str) :
  main fs = inr fs' → fs' !! input_path = fs !! input_path.
Proof.
  intros Hmain. apply (main_frame _ _ _ Hmain).
  intros H. by apply output_path_not_input in H.
Qed.

(** C10. A run writes only to [codegen_new.cpp] and to the files of the
    five keys; none of these paths is that of the input, and the input
    file holds after the run what it held before. *)
Theorem input_file_untouched (fs fs' : gmap str str) :
  main fs = inr fs' →
  fs' !! input_path = fs !! input_path
  ∧ (∀ path, is_output_path path → path ≠ input_path)
  ∧ ∀ path, ¬ is_output_path path → fs' !! path = fs !! path.
Proof.
  intros Hmain. split; [by apply main_keeps_input|].
  split; [apply output_path_not_input|].
  intros path. by apply main_frame.
Qed.

(** C8. The files a run writes are a function of the text of the input
    file alone: run again on what it left behind, the script changes
    nothing; and started from another file system with the same input
    text, it succeeds as well and leaves the same text in every file it
    writes ([ws], in the order of writing), the other files being those
    of the respective start. *)
Theorem rerun_reproduces_outputs (fs1 fs2 out1 : gmap str str) :
  fs1 !! input_path = fs2 !! input_path →
  main fs1 = inr out1 →
  main out1 = inr out1
  ∧ ∃ text ws out2,
      fs1 !! input_path = Some text
      ∧ outputs (readlines text) = inr ws
      ∧ main fs2 = inr out2
      ∧ (∀ path, path ∈ ws.*1 →
           is_Some (out1 !! path) ∧ out1 !! path = out2 !! path)
      ∧ (∀ path, path ∉ ws.*1 →
           out1 !! path = fs1 !! path ∧ out2 !! path = fs2 !! path).
Proof.
  intros Hsame Hmain.
  pose proof (main_keeps_input _ _ Hmain) as Hin.
  apply main_spec in Hmain as (text & ws & Htext & Hws & ->).
  split.
  - apply main_spec. exists text, ws. rewrite Hin.
    by rewrite foldl_write_twice.
  - exists text, ws, (foldl write_file fs2 ws).
    split; [done|]. split; [done|]. split.
    { apply main_spec. exists text, ws. by rewrite <-Hsame. }
    split; intros path Hpath.
    + rewrite !foldl_write_lookup.
      destruct (last_write ws path) eqn:Hlast; [by eauto|].
      exfalso. clear -Hpath Hlast. unfold last_write in Hlast.
      apply fmap_None, last_None in Hlast.
      apply list_elem_of_fmap in Hpath as (w & -> & Hw).
      assert (w ∈ filter (λ w', w'.1 = w.1) ws) as Hf
        by by apply list_elem_of_filter.
      rewrite Hlast in Hf. by apply elem_of_nil in Hf.
    + by rewrite !foldl_write_lookup, last_write_None.
Qed.

(** ** The reduced file *)

Lemma preamble_take lines :
  ∃ n, n ≤ length lines
       ∧ preamble lines = take n lines
       ∧ (∀ i line, i < n → lines !! i = Some line →
            re_match unicode_alnum prefix_re line = None)
       ∧ ∀ line, lines !! n = Some line →
           is_Some (re_match unicode_alnum prefix_re line).
Proof.
  induction lines as [|l lines (n & Hn & Hpre & Hbefore & Hat)]; cbn.
  - exists 0. repeat split; [done|intros; lia|done].
  - destruct (re_match _ _ l) as [m|] eqn:Hm.
    + exists 0. repeat split; [lia|intros; lia|]. intros line [= <-]. eauto.
    + exists (S n). cbn. rewrite Hpre. repeat split; [lia| |done].
      intros [|i] line Hi; cbn; [by intros [= <-]|].
      apply Hbefore. lia.
Qed.

(** Every line that the scanner takes for a header ends the preamble. *)
Lemma header_match_prefix line :
  is_Some (re_match unicode_alnum header_re line) →
  is_Some (re_match unicode_alnum prefix_re line).
Proof.
  unfold re_match, header_re. cbn [rmatch].
  destruct (rmatch _ prefix_re [] line) as [|m ms]; [|by eauto].
  intros [? H]. done.
Qed.

(** C5, as the code has it. The reduced file is: the lines ahead of the
    first line that starts with a return type and [ CodeGenerator::]
    (whether or not a name and a parenthesis follow, or the name is in
    the table), as they are, which are lines ahead of every function the
    scanner discovers; then, by order of the allow-list, the text of the
    record of each name that has one, each followed by a newline; then
    the closing of the namespace. *)
Theorem reduced_file_content (lines : list str) :
  ∃ n, n ≤ length lines
    ∧ (∀ i line, i < n → lines !! i = Some line →
         re_match unicode_alnum prefix_re line = None)
    ∧ (∀ line, lines !! n = Some line →
         is_Some (re_match unicode_alnum prefix_re line))
    ∧ (∀ r, r ∈ find_functions_log lines → n ≤ found_start r)
    ∧ reduced_text lines (find_functions lines) =
        join (take n lines)
        ++ concat ((λ func_name,
                      match dict_get (find_functions lines) func_name with
                      | Some (start, end_, _) =>
                          join (slice lines start end_) ++ nl
                      | None => []
                      end) <$> keep_functions)
        ++ namespace_close.
Proof.
  destruct (preamble_take lines) as (n & Hn & Hpre & Hbefore & Hat).
  exists n. unfold reduced_text. rewrite Hpre.
  split; [done|]. split; [done|]. split; [done|]. split; [|done].
  intros r Hr. destruct (find_functions_spec lines) as [_ Hchain].
  destruct (chain_header _ _ _ _ Hchain Hr) as (line & Hline & Hm).
  apply header_match_prefix in Hm as [m Hm].
  destruct (decide (n ≤ found_start r)) as [|Hlt]; [done|].
  rewrite (Hbefore (found_start r) line) in Hm; [done|lia|done].
Qed.

(** * More of the script *)

(** ** What the scanner records and what it passes over *)

(** X1. Every record of [functions] stands for a header of the source: its
    start line matches the header pattern, its key is the name captured
    there, its target is the entry of the table for that name, and its end
    is where the brace loop stops for that start. *)
Theorem records_are_classified_headers (lines : list str) (x : str * extent) :
  x ∈ find_functions lines →
  ∃ line m,
    lines !! item_start x = Some line
    ∧ re_match unicode_alnum header_re line = Some m
    ∧ x.1 = group 2 m
    ∧ FUNCTION_MAP !! x.1 = Some x.2.2
    ∧ item_end x = extent_end lines (item_start x).
Proof.
  intros (r & Hr & ->)%find_functions_in_log.
  destruct (find_functions_spec lines) as [_ Hchain].
  revert Hchain Hr. generalize 0 at 1.
  induction (find_functions_log lines) as [|[[[n s] e] t] log IH]; intros lo.
  - by intros _ ?%elem_of_nil.
  - cbn [chain].
    intros (_ & _ & He & Ht & (line & m & ? & ? & ?) & Hchain)
      [->|Hin]%elem_of_cons.
    + exists line, m. done.
    + by apply (IH _ Hchain).
Qed.

Lemma find_loop_covers lines fuel : ∀ i0 functions log functions' log',
  find_loop fuel lines i0 functions log = Some (functions', log') →
  ∃ new, log' = log ++ new
    ∧ ∀ i line m target,
        i0 ≤ i → lines !! i = Some line →
        re_match unicode_alnum header_re line = Some m →
        FUNCTION_MAP !! group 2 m = Some target →
        (group 2 m, i, extent_end lines i, target) ∈ new
        ∨ ∃ r, r ∈ new ∧ found_start r < i < found_end r.
Proof.
  induction fuel as [|fuel IH]; intros i0 fns log fns' log'; [done|].
  cbn [find_loop].
  destruct (lines !! i0) as [line0|] eqn:Hline0.
  2:{ intros [= <- <-]. exists []. rewrite app_nil_r. split; [done|].
      intros i line m target Hi Hline. apply lookup_ge_None in Hline0.
      apply lookup_lt_Some in Hline. lia. }
  destruct (re_match _ _ line0) as [m0|] eqn:Hm0.
  2:{ intros (new & -> & Hnew)%IH. exists new. split; [done|].
      intros i line m target Hi Hline Hm Ht.
      destruct (decide (i = i0)) as [->|]; [congruence|].
      apply (Hnew i line m target); [lia|done..]. }
  destruct (FUNCTION_MAP !! group 2 m0) as [target0|] eqn:Ht0.
  2:{ intros (new & -> & Hnew)%IH. exists new. split; [done|].
      intros i line m target Hi Hline Hm Ht.
      destruct (decide (i = i0)) as [->|]; [congruence|].
      apply (Hnew i line m target); [lia|done..]. }
  intros (new & -> & Hnew)%IH.
  exists ((group 2 m0, i0, extent_end lines i0, target0) :: new).
  rewrite <-app_assoc. split; [done|].
  intros i line m target Hi Hline Hm Ht.
  destruct (decide (i = i0)) as [->|Hne].
  { assert (line = line0) as -> by congruence.
    assert (m = m0) as -> by congruence.
    assert (target = target0) as -> by congruence. left. left. }
  destruct (decide (i < extent_end lines i0)) as [Hin|Hout].
  { right. eexists. split; [left|]. cbn. lia. }
  destruct (Hnew i line m target) as [?|(r & ? & ?)]; [lia|done..| |].
  - left. by right.
  - right. exists r. split; [by right|done].
Qed.

(** X2. The scanner passes over no header of a classified function, except
    inside an extent: a line that matches the header pattern with a name
    of the table is the start of a discovery, which ends where the brace
    loop stops for it, or it lies within the extent of a discovery that
    starts before it. *)
Theorem classified_headers_found (lines : list str) (i : nat) (line : str)
    (m : list str) (target : str) :
  lines !! i = Some line →
  re_match unicode_alnum header_re line = Some m →
  FUNCTION_MAP !! group 2 m = Some target →
  (group 2 m, i, extent_end lines i, target) ∈ find_functions_log lines
  ∨ ∃ r, r ∈ find_functions_log lines ∧ found_start r < i < found_end r.
Proof.
  intros Hline Hm Ht.
  pose proof (find_run_total lines) as Hrun. unfold find_run in Hrun.
  apply find_loop_covers in Hrun as (new & Hnew & Hcover).
  rewrite app_nil_l in Hnew. rewrite Hnew. apply (Hcover i line m target); [lia|done..].
Qed.

(** X3. An extent that the brace loop does not close (the loop runs into
    its [else]) runs to the end of the input, and no function after it is
    recorded: it is the last discovery. *)
Theorem unclosed_extent_is_last (lines : list str) (r : found) :
  r ∈ find_functions_log lines →
  scan_body (drop (found_start r + 1) lines) (found_start r + 1) 0%Z false
  = None →
  found_end r = length lines ∧ last (find_functions_log lines) = Some r.
Proof.
  intros Hr Hopen.
  destruct (find_functions_spec lines) as [_ Hchain].
  pose proof (chain_elem _ _ _ _ Hchain Hr) as (_ & _ & Hend & _).
  assert (found_end r = length lines) as Hlen.
  { rewrite Hend. unfold extent_end. by rewrite Hopen. }
  split; [done|].
  pose proof (log_sorted lines) as Hsorted.
  apply list_elem_of_split in Hr as (l1 & l2 & Hlog). rewrite Hlog in *.
  destruct l2 as [|r' l2]; [by rewrite last_snoc|]. exfalso.
  apply StronglySorted_app_1_r, StronglySorted_inv in Hsorted as [_ Hr'].
  apply Forall_cons in Hr' as [Hr' _].
  assert (r' ∈ find_functions_log lines) as Hin.
  { rewrite Hlog. apply elem_of_app. right. right. left. }
  apply log_bounds in Hin. lia.
Qed.

Lemma scan_body_app rest more j brace_count in_function e :
  scan_body rest j brace_count in_function = Some e →
  scan_body (rest ++ more) j brace_count in_function = Some e.
Proof.
  rewrite !scan_body_spec. intros (k & -> & Hk & Hclose & Hmin).
  assert (∀ k', k' < length rest →
            closes_at brace_count in_function (rest ++ more) k'
            ↔ closes_at brace_count in_function rest k') as Hsame.
  { intros k' Hk'. unfold closes_at. by rewrite take_app_le by lia. }
  exists k. split; [done|]. rewrite length_app. split; [lia|].
  split; [by apply Hsame|].
  intros k' Hk'. rewrite Hsame by lia. by apply Hmin.
Qed.

Lemma scan_body_shift rest j j' brace_count in_function e :
  scan_body rest j brace_count in_function = Some e →
  scan_body rest j' brace_count in_function = Some (e - j + j').
Proof.
  rewrite !scan_body_spec. intros (k & -> & Hrest).
  exists k. split; [lia|done].
Qed.

(** X4. Where an extent ends depends on the lines after the header alone:
    when the brace loop closes a body after [n] of its lines, a function
    with this body has its end [n] lines after its header, whatever the
    header line, the lines ahead of it and the lines after the body are. *)
Theorem extent_relocates (body : list str) (n : nat) :
  scan_body body 0 0%Z false = Some n →
  ∀ (pre : list str) (header : str) (more : list str),
    extent_end (pre ++ header :: body ++ more) (length pre)
    = length pre + 1 + n.
Proof.
  intros Hbody pre header more. unfold extent_end.
  replace (drop (length pre + 1) (pre ++ header :: body ++ more))
    with (body ++ more).
  2:{ rewrite drop_app_ge by lia.
      by replace (length pre + 1 - length pre) with 1 by lia. }
  apply (scan_body_app _ more) in Hbody.
  apply (scan_body_shift _ _ (length pre + 1)) in Hbody.
  rewrite Hbody. cbn. lia.
Qed.

(** ** What the header pattern takes and what it captures *)

Lemma rmatch_caps r : ∀ caps s caps' s',
  (caps', s') ∈ rmatch unicode_alnum r caps s →
  ∃ w new, s = w ++ s' ∧ caps' = caps ++ new ∧ lang_caps r w new.
Proof.
  induction r as [p| |r1 IH1 r2 IH2|r1 IH1 r2 IH2|r1 IH1];
    intros caps s caps' s'; cbn [rmatch lang_caps].
  - destruct (strip_prefix p s) as [s0|] eqn:Hs0; [|by intros ?%elem_of_nil].
    apply strip_prefix_spec in Hs0 as ->.
    intros [= -> ->]%list_elem_of_singleton.
    exists p, []. by rewrite app_nil_r.
  - intros (s0 & [= -> ->] & Hin)%list_elem_of_fmap.
    apply word_plus_spec in Hin as (w & ? & ? & ->).
    exists w, []. by rewrite app_nil_r.
  - intros [Hin|Hin]%elem_of_app.
    + apply IH1 in Hin as (w & new & ? & ? & ?). exists w, new. auto.
    + apply IH2 in Hin as (w & new & ? & ? & ?). exists w, new. auto.
  - intros ([c1 s1] & Hin2 & Hin1)%list_elem_of_bind. cbn [fst snd] in Hin2.
    apply IH1 in Hin1 as (w1 & new1 & -> & -> & ?).
    apply IH2 in Hin2 as (w2 & new2 & -> & -> & ?).
    exists (w1 ++ w2), (new1 ++ new2). rewrite <-!app_assoc.
    split; [done|]. split; [done|]. by exists w1, w2, new1, new2.
  - intros ([c1 s1] & [= -> ->] & Hin)%list_elem_of_fmap.
    apply IH1 in Hin as (w & new & -> & -> & ?). cbn [fst snd].
    exists w, (new ++ [w]). split; [done|].
    rewrite length_app, Nat.add_sub, take_app_length, <-app_assoc.
    split; [done|]. by exists new.
Qed.

Lemma word_run_unique (w w' : str) (c : N) (x y : str) :
  Forall (λ c, is_word unicode_alnum c = true) w →
  Forall (λ c, is_word unicode_alnum c = true) w' →
  is_word unicode_alnum c = false →
  w ++ c :: x = w' ++ c :: y → w = w' ∧ x = y.
Proof.
  intros Hw. revert w'. induction Hw as [|d w Hd Hw IH]; intros w' Hw' Hc Heq.
  - destruct Hw' as [|d' w' Hd' Hw']; cbn in Heq; [by injection Heq|].
    injection Heq as -> _. congruence.
  - destruct Hw' as [|d' w' Hd' Hw']; cbn in Heq.
    + injection Heq as -> _. congruence.
    + injection Heq as -> Heq. destruct (IH w' Hw' Hc Heq) as [-> ->]. done.
Qed.

Lemma return_type_unique (rt rt' a b : str) :
  return_type unicode_alnum rt → return_type unicode_alnum rt' →
  rt ++ lit " CodeGenerator::" ++ a = rt' ++ lit " CodeGenerator::" ++ b →
  rt = rt' ∧ a = b.
Proof.
  intros [(w & _ & Hw & ->) | [-> | [-> | ->]]]
    [(w' & _ & Hw' & ->) | [-> | [-> | ->]]] Heq;
    try (cbn in Heq; discriminate Heq);
    try (split; [done|]; cbn in Heq; by simplify_eq).
  rewrite <-!app_assoc in Heq. apply app_inv_head in Heq.
  apply (word_run_unique w w' 42%N) in Heq as [-> Heq]; [|done..].
  split; [done|]. cbn in Heq. by simplify_eq.
Qed.

(** X5. The scanner takes a line for a header when and only when the line
    is a return type ([void], [bool], [std::string], or [llvm::], a word
    and a star), a space, [CodeGenerator::], a word and an opening
    parenthesis, followed by anything; the two groups are then the return
    type and that word, which is the function name looked up. *)
Theorem header_pattern_captures (line : str) (m : list str) :
  re_match unicode_alnum header_re line = Some m ↔
  ∃ rt name rest,
    return_type unicode_alnum rt ∧ word name
    ∧ line = header_line rt name rest
    ∧ m = [rt; name] ∧ group 2 m = name.
Proof.
  assert (∀ m', re_match unicode_alnum header_re line = Some m' →
            ∃ rt name rest,
              return_type unicode_alnum rt ∧ word name
              ∧ line = header_line rt name rest ∧ m' = [rt; name]) as Hsound.
  { intros m'. unfold re_match.
    destruct (rmatch unicode_alnum header_re [] line) as [|[c s'] l] eqn:Hl;
      [done|]. intros [= <-].
    destruct (rmatch_caps header_re [] line c s') as (w & new & -> & -> & Hw);
      [rewrite Hl; left|].
    unfold header_re, prefix_re in Hw. cbn [lang_caps] in Hw.
    destruct Hw as (w1 & w2 & c1 & c2 & -> & -> & Hpre & Hname).
    destruct Hpre as (rt & w3 & c3 & c4 & -> & -> & (c5 & -> & Hrt) & -> & ->).
    destruct Hname as (name & w4 & c6 & c7 & -> & ->
                       & (c8 & -> & Hword & ->) & -> & ->).
    exists rt, name, s'. unfold header_line. rewrite <-!app_assoc.
    assert (return_type unicode_alnum rt ∧ c5 = []) as [? ->].
    { destruct Hrt as [(w5 & w6 & c9 & c10 & -> & -> & [-> ->]
                        & w7 & w8 & c11 & c12 & -> & -> & [[? ?] ->] & -> & ->)
                      | [[-> ->] | [[-> ->] | [-> ->]]]].
      - split; [|done]. left. by exists w7.
      - split; [|done]. right. by left.
      - split; [|done]. right. right. by left.
      - split; [|done]. right. right. by right. }
    done. }
  split.
  - intros (rt & name & rest & ? & ? & ? & ->)%Hsound.
    exists rt, name, rest. done.
  - intros (rt & name & rest & Hrt & [Hne Hname] & -> & -> & _).
    destruct (proj2 (header_re_shape (header_line rt name rest)))
      as [m' Hm']; [by exists rt, name, rest|].
    rewrite Hm'. f_equal.
    apply Hsound in Hm' as (rt' & name' & rest' & Hrt' & [_ Hname'] & Heq & ->).
    unfold header_line in Heq.
    apply return_type_unique in Heq as [-> Heq]; [|done..].
    apply (word_run_unique name name' 40%N) in Heq as [-> _]; done.
Qed.

(** ** When the aggregation fails *)

Lemma aggregate_error items : ∀ file_functions e,
  aggregate items file_functions = inl e ↔
  ∃ l1 x l2,
    items = l1 ++ x :: l2
    ∧ Forall (λ y : str * extent, is_Some (key_of_name y.2.2)) l1
    ∧ key_of_name x.2.2 = None ∧ e = KeyError x.2.2.
Proof.
  induction items as [|[n [[st en] t]] items IH]; intros ff e.
  - split; [done|]. intros (l1 & x & l2 & Heq & _). by destruct l1.
  - cbn [aggregate]. destruct (key_of_name t) as [k|] eqn:Hk.
    + rewrite IH. split.
      * intros (l1 & x & l2 & -> & Hl1 & Hx & ->).
        exists ((n, (st, en, t)) :: l1), x, l2. split; [done|].
        split; [|done]. constructor; [cbn; eauto|done].
      * intros (l1 & x & l2 & Heq & Hl1 & Hx & ->).
        destruct l1 as [|y l1]; cbn in Heq.
        -- injection Heq as <- <-. cbn [snd] in Hx. congruence.
        -- injection Heq as <- ->. apply Forall_cons in Hl1 as [_ Hl1].
           by exists l1, x, l2.
    + split.
      * intros [= <-]. exists [], (n, (st, en, t)), items. done.
      * intros (l1 & x & l2 & Heq & Hl1 & Hx & ->).
        destruct l1 as [|y l1]; cbn in Heq.
        -- by injection Heq as <- <-.
        -- injection Heq as <- ->. apply Forall_cons in Hl1 as [[k Hk'] _].
           cbn [snd] in Hk'. congruence.
Qed.

(** X6. The script stops with a [KeyError] when and only when a record of
    [functions] has a target that is none of the five keys; the key of the
    error is the target of the first such record, in the order of
    [functions], and no file has been written by then. A table entry with
    such a target does no harm as long as no header of the source bears
    its name. *)
Theorem key_error_at_first_unknown_target (lines : list str) (e : error) :
  outputs lines = inl e ↔
  ∃ l1 x l2,
    find_functions lines = l1 ++ x :: l2
    ∧ Forall (λ y : str * extent, is_Some (key_of_name y.2.2)) l1
    ∧ key_of_name x.2.2 = None ∧ e = KeyError x.2.2.
Proof.
  rewrite <-(aggregate_error _ (λ _, [])). unfold outputs.
  destruct (aggregate _ _) as [e'|ff]; [|done].
  split; by intros [= ->].
Qed.


Lemma aggregate_inr_keys items : ∀ file_functions file_functions',
  aggregate items file_functions = inr file_functions' →
  Forall (λ y : str * extent, is_Some (key_of_name y.2.2)) items.
Proof.
  induction items as [|[n [[st en] t]] items IH]; intros ff ff'; [constructor|].
  cbn [aggregate]. destruct (key_of_name t) as [k|] eqn:Hk; [|done].
  intros Hagg. constructor; [cbn [snd]; eauto|by eapply IH].
Qed.


(** ** The files of a run *)

Lemma members_elem k items f :
  f ∈ members k items ↔
  ∃ x, x ∈ items ∧ x.2.2 = key_name k ∧ f = (x.1, item_start x, item_end x).
Proof.
  unfold members. rewrite list_elem_of_omap. split.
  - intros (x & Hx & Hf). case_decide; [|done]. injection Hf as <-. eauto.
  - intros (x & Hx & Hk & ->). exists x. by rewrite decide_True.
Qed.

Lemma key_name_inj k k' : key_name k = key_name k' → k = k'.
Proof. by destruct k, k'. Qed.

Lemma filename_inj k k' : filename k = filename k' → k = k'.
Proof. by destruct k, k'. Qed.

Lemma emit_partitions_paths lines file_functions :
  (emit_partitions lines file_functions).*1
  = filename <$> filter (λ k, file_functions k ≠ []) file_keys.
Proof.
  unfold emit_partitions. induction file_keys as [|k keys IH]; [done|].
  rewrite bind_cons, fmap_app, IH, filter_cons.
  destruct (file_functions k) as [|f funcs] eqn:Hk.
  - by rewrite decide_False by naive_solver.
  - by rewrite decide_True by done.
Qed.

Lemma emit_partitions_written lines file_functions k :
  file_functions k ≠ [] →
  (filename k, partition_text lines k (file_functions k))
  ∈ emit_partitions lines file_functions.
Proof.
  intros Hk. unfold emit_partitions. apply list_elem_of_bind. exists k.
  split; [|by destruct k; repeat constructor].
  destruct (file_functions k); [done|left].
Qed.

Lemma file_keys_NoDup : NoDup file_keys.
Proof. apply (bool_decide_unpack _). by vm_compute. Qed.

Lemma outputs_paths_NoDup lines ws : outputs lines = inr ws → NoDup ws.*1.
Proof.
  intros (ff & _ & ->)%outputs_spec.
  rewrite fmap_app, emit_partitions_paths. cbn [fmap list_fmap fst].
  apply NoDup_app. split; [|split].
  - apply NoDup_fmap_2_strong; [by intros k k' _ _ ?%filename_inj|].
    apply NoDup_filter, file_keys_NoDup.
  - intros path (k & -> & _)%list_elem_of_fmap ?%list_elem_of_singleton.
    by destruct k.
  - apply NoDup_singleton.
Qed.

Lemma partition_nonempty lines file_functions k :
  aggregate (find_functions lines) (λ _, []) = inr file_functions →
  sorted_partitions file_functions k ≠ [] ↔
  ∃ x, x ∈ find_functions lines ∧ x.2.2 = key_name k.
Proof.
  intros Hagg. unfold sorted_partitions.
  rewrite (aggregate_spec _ _ _ Hagg k), app_nil_l. split.
  - intros Hne. destruct (sort_by_start _) as [|f l] eqn:Hsort; [done|].
    assert (f ∈ members k (find_functions lines)) as Hf.
    { rewrite <-sort_by_start_perm, Hsort. left. }
    apply members_elem in Hf as (x & ? & ? & _). eauto.
  - intros (x & Hx & Hk) Hnil.
    assert ((x.1, item_start x, item_end x)
            ∈ sort_by_start (members k (find_functions lines))) as Hf.
    { rewrite sort_by_start_perm. apply members_elem. eauto. }
    rewrite Hnil in Hf. by apply elem_of_nil in Hf.
Qed.

(** X7. A run that gets to write writes one file for each key that is the
    target of some record, none for the other keys (no empty partition
    file), then the reduced file, whatever the source holds; no path is
    written twice. *)
Theorem files_written (lines : list str) (ws : list (str * str)) :
  outputs lines = inr ws →
  (∀ k, filename k ∈ ws.*1 ↔
        ∃ x, x ∈ find_functions lines ∧ x.2.2 = key_name k)
  ∧ last ws = Some (reduced_path, reduced_text lines (find_functions lines))
  ∧ NoDup ws.*1.
Proof.
  intros Hws. split; [|split; [|by apply outputs_paths_NoDup in Hws]].
  - apply outputs_spec in Hws as (ff & Hagg & ->). intros k.
    rewrite <-(partition_nonempty _ _ _ Hagg), fmap_app, elem_of_app.
    rewrite emit_partitions_paths. cbn [fmap list_fmap fst]. split.
    + intros [(k' & ->%filename_inj & Hk)%list_elem_of_fmap|Hred].
      * by apply list_elem_of_filter in Hk as [? _].
      * apply list_elem_of_singleton in Hred. by destruct k.
    + intros Hk. left. apply list_elem_of_fmap_2, list_elem_of_filter.
      split; [done|]. by destruct k; repeat constructor.
  - apply outputs_spec in Hws as (ff & _ & ->). by rewrite last_snoc.
Qed.

Lemma app_rebracket {A} (h a b c x y z w : list A) :
  h ++ a ++ b ++ c ++ (x ++ y ++ z) ++ w = (h ++ a ++ b ++ c ++ x) ++ y ++ z ++ w.
Proof. by rewrite <-!app_assoc. Qed.

Lemma concat_elem_split {A} (l : list (list A)) (x : list A) :
  x ∈ l → ∃ before after, concat l = before ++ x ++ after.
Proof.
  intros (l1 & l2 & ->)%list_elem_of_split.
  exists (concat l1), (concat l2). by rewrite concat_app.
Qed.

(** X8. Every record of [functions] goes to one partition file, that of
    its target: the file is written, it holds the text of the record
    (its lines and the newline after them) between the opening and the
    closing of the namespace, and the record is listed under no other
    key. *)
Theorem record_in_one_partition (lines : list str) (ws : list (str * str))
    (x : str * extent) :
  outputs lines = inr ws → x ∈ find_functions lines →
  ∃ k text before after,
    x.2.2 = key_name k
    ∧ (filename k, text) ∈ ws
    ∧ text = before ++ func_text lines (item_start x) (item_end x)
             ++ after ++ namespace_close
    ∧ ∀ k', (x.1, item_start x, item_end x)
            ∈ members k' (find_functions lines) → k' = k.
Proof.
  intros (ff & Hagg & ->)%outputs_spec Hx.
  assert (∃ k, x.2.2 = key_name k) as [k Hk].
  { apply aggregate_inr_keys in Hagg. rewrite Forall_forall in Hagg.
    destruct (Hagg x Hx) as [k Hk]. exists k. by apply key_of_name_spec. }
  assert ((x.1, item_start x, item_end x) ∈ sorted_partitions ff k) as Hf.
  { unfold sorted_partitions.
    rewrite sort_by_start_perm, (aggregate_spec _ _ _ Hagg k), app_nil_l.
    apply members_elem. eauto. }
  assert (sorted_partitions ff k ≠ []) as Hne.
  { intros Hnil. rewrite Hnil in Hf. by apply elem_of_nil in Hf. }
  destruct (concat_elem_split
              ((λ f : func, func_text lines f.1.2 f.2)
                 <$> sorted_partitions ff k)
              (func_text lines (item_start x) (item_end x)))
    as (before & after & Hconcat).
  { by apply (list_elem_of_fmap_2 (λ f : func, func_text lines f.1.2 f.2)) in Hf. }
  exists k, (partition_text lines k (sorted_partitions ff k)).
  eexists _, after. split; [done|]. split.
  { apply elem_of_app. left. by apply emit_partitions_written. }
  split.
  { unfold partition_text. rewrite Hconcat. apply app_rebracket. }
  intros k' (y & Hy & Hky & Heq)%members_elem.
  assert (x = y) as <-.
  { pose proof (find_functions_NoDup lines) as Hnd.
    destruct x as [n v], y as [n' v']. injection Heq as -> _ _.
    apply (dict_elem_get _ _ _ Hnd) in Hx.
    apply (dict_elem_get _ _ _ Hnd) in Hy.
    rewrite Hx in Hy. by injection Hy as ->. }
  apply key_name_inj. by rewrite <-Hk, <-Hky.
Qed.

Lemma last_write_elem (ws : list (str * str)) path text :
  NoDup ws.*1 → (path, text) ∈ ws → last_write ws path = Some text.
Proof.
  unfold last_write. induction ws as [|[p t] ws IH]; cbn [fmap list_fmap].
  - by intros _ ?%elem_of_nil.
  - rewrite NoDup_cons. intros [Hp Hnd] [[= <- <-]|Hin]%elem_of_cons.
    + rewrite filter_cons, decide_True by done.
      pose proof (last_write_None ws path Hp) as Hnone.
      unfold last_write in Hnone. apply fmap_None, last_None in Hnone.
      by rewrite Hnone.
    + rewrite filter_cons, decide_False.
      * by apply IH.
      * cbn. intros ->. apply Hp. by apply (list_elem_of_fmap_2 fst) in Hin.
Qed.

(** X9. After a run every file written holds the text composed for it, and
    every other file, the input among them, holds what it held before. *)
Theorem files_after_run (fs fs' : gmap str str) :
  main fs = inr fs' →
  ∃ text ws,
    fs !! input_path = Some text
    ∧ outputs (readlines text) = inr ws
    ∧ (∀ path t, (path, t) ∈ ws → fs' !! path = Some t)
    ∧ (∀ path, path ∉ ws.*1 → fs' !! path = fs !! path)
    ∧ input_path ∉ ws.*1.
Proof.
  intros (text & ws & Htext & Hws & ->)%main_spec.
  exists text, ws. split; [done|]. split; [done|].
  pose proof (outputs_paths_NoDup _ _ Hws) as Hnd.
  split; [|split].
  - intros path t Hin. by rewrite foldl_write_lookup, (last_write_elem _ _ t).
  - intros path Hpath. by rewrite foldl_write_lookup, last_write_None.
  - intros (w & Hw & Hin)%list_elem_of_fmap.
    apply outputs_paths in Hws. rewrite Forall_forall in Hws.
    apply Hws, output_path_not_input in Hin. congruence.
Qed.

(** ** A source without functions of the class *)

Lemma readlines_from_join text : ∀ cur,
  join (readlines_from cur text) = cur ++ text.
Proof.
  unfold join. induction text as [|c text IH]; intros cur; cbn.
  - destruct cur; cbn; by rewrite ?app_nil_r.
  - case_decide; cbn; rewrite IH, <-?app_assoc; done.
Qed.

Lemma preamble_all lines :
  Forall (λ line, re_match unicode_alnum prefix_re line = None) lines →
  preamble lines = lines.
Proof.
  induction 1 as [|line lines Hline _ IH]; [done|].
  cbn. by rewrite Hline, IH.
Qed.

Lemma no_header_no_record lines :
  Forall (λ line, re_match unicode_alnum prefix_re line = None) lines →
  find_functions lines = [].
Proof.
  intros Hlines. destruct (find_functions_spec lines) as [-> Hchain].
  destruct (find_functions_log lines) as [|r log] eqn:Hlog; [done|]. exfalso.
  destruct (chain_header _ _ 0 r Hchain) as (line & Hline & Hm); [left|].
  apply header_match_prefix in Hm as [m Hm].
  rewrite Forall_forall in Hlines.
  rewrite Hlines in Hm; [done|]. by apply list_elem_of_lookup_2 in Hline.
Qed.

(** X10. When no line of the input starts with a return type followed by
    [ CodeGenerator::] (the empty input is one such), the run writes one
    file, the reduced file, and its text is the text of the input followed
    by the closing of the namespace; the partition files are not touched. *)
Theorem source_without_headers (fs : gmap str str) (text : str) :
  fs !! input_path = Some text →
  Forall (λ line, re_match unicode_alnum prefix_re line = None)
    (readlines text) →
  main fs = inr (<[reduced_path := text ++ namespace_close]> fs).
Proof.
  intros Htext Hlines. apply main_spec.
  exists text, [(reduced_path, text ++ namespace_close)].
  split; [done|]. split; [|done].
  assert (concat (kept_text (readlines text) [] <$> keep_functions) = [])
    as Hkept.
  { clear. induction keep_functions as [|n l IH]; [done|].
    by rewrite fmap_cons. }
  unfold outputs, reduced_text. rewrite (no_header_no_record _ Hlines).
  cbn [aggregate]. rewrite Hkept, (preamble_all _ Hlines).
  unfold readlines. rewrite readlines_from_join. done.
Qed.

End pipeline.

(** ** The claims on the examples *)

Ltac find_elem :=
  repeat first [apply list_elem_of_here | apply list_elem_of_further].

(** C1, as stated, fails: no line of the example starts with a return type
    and [ CodeGenerator::], so that nothing is scanned, no file is written
    for either category, and both lines go to the reduced file as
    preamble. *)
Lemma end_to_end_as_stated_fails :
  ¬ ∃ ws,
      outputs no_unicode claim_table claim_allow claim_lines = inr ws
      ∧ end_to_end ws (filename_of (lit "cat1")) (filename_of (lit "cat2"))
          [] (join (take 1 claim_lines)) (join (drop 1 claim_lines)).
Proof.
  intros (ws & Hws & (text & Hin & _) & _).
  vm_compute in Hws. injection Hws as <-.
  apply list_elem_of_singleton in Hin. vm_compute in Hin. discriminate Hin.
Qed.

Example end_to_end_as_stated_outputs :
  outputs no_unicode claim_table claim_allow claim_lines
  = inr [(reduced_path, join claim_lines ++ namespace_close)].
Proof. vm_compute. reflexivity. Qed.

(** With the headers in the scanner's form but each body on its header
    line, the braces of f's header line are not counted, those of g's line
    are taken for f's body, and g is never recorded. *)
Example one_line_bodies_merge :
  find_functions no_unicode shaped_table one_line_bodies
  = [(lit "f", (0, 2, key_name Match))].
Proof. vm_compute. reflexivity. Qed.

(** C1, as the code has it: with headers of the form the scanner looks
    for, each on a line of its own ahead of its body, a preamble ahead of
    them, f mapped to [match] and g to [type], and g on the allow-list,
    the file of [match] holds f's text and not g's, the file of [type]
    holds g's text and not f's, and the reduced file starts with the
    preamble and holds g's text and not f's. *)
Theorem end_to_end_on_scanner_headers :
  ∃ ws,
    outputs no_unicode shaped_table claim_allow shaped_lines = inr ws
    ∧ end_to_end ws (filename Match) (filename Type_)
        (join (take 1 shaped_lines))
        (join (slice shaped_lines 1 3)) (join (slice shaped_lines 3 5)).
Proof.
  eexists. split; [vm_compute; reflexivity|].
  repeat split; eexists; (split; [find_elem|]); vm_compute; done.
Qed.

(** C2, as stated, fails: a closing brace in a comment of the signature
    brings the count to -1, the opening brace of the body brings it back
    to 0, and the extent ends there, at line 3 instead of line 5. *)
Lemma early_braces_counted : ¬ early_braces_ignored.
Proof.
  intros H.
  specialize (H early_brace_header early_brace_pre early_brace_rest).
  assert (Forall (λ line, contains lbrace line = false) early_brace_pre) as Hpre.
  { repeat constructor. }
  apply H in Hpre. vm_compute in Hpre. discriminate Hpre.
Qed.

Example early_brace_extents :
  extent_end (early_brace_header :: early_brace_pre ++ early_brace_rest) 0 = 3
  ∧ extent_end
      (early_brace_header
         :: (filter (λ c, c ≠ rbrace) <$> early_brace_pre) ++ early_brace_rest)
      0 = 5.
Proof. split; vm_compute; reflexivity. Qed.

(** Braces in a default argument end the extent on the line of the
    signature that holds them. *)
Example default_argument_braces :
  extent_end default_argument_lines 0 = 2.
Proof. vm_compute. reflexivity. Qed.

(** When the bodies open on the header lines, the closing brace of the
    first body brings the count to -1, the opening brace on the next header
    line brings it back to 0: the first extent takes in the second header,
    and the second function is never recorded. *)
Example same_line_braces :
  find_functions no_unicode FUNCTION_MAP_src same_line_brace_lines
  = [(lit "generateBreakStmt", (0, 5, key_name Stmt))].
Proof. vm_compute. reflexivity. Qed.

(** C3 on a source that defines [printIR], the first name of the script's
    allow-list: its header is recognized, but the name is not in
    [FUNCTION_MAP], no record is made, and the reduced file, the only file
    written, holds the preamble and the closing of the namespace. *)
Theorem allow_listed_function_dropped :
  re_match no_unicode header_re (default [] (core_lines !! 1))
  = Some [lit "void"; lit "printIR"]
  ∧ lit "printIR" ∈ keep_functions_src
  ∧ find_functions no_unicode FUNCTION_MAP_src core_lines = []
  ∧ outputs no_unicode FUNCTION_MAP_src keep_functions_src core_lines
    = inr [(reduced_path, lit "namespace pawc {" ++ nl ++ namespace_close)].
Proof.
  split; [vm_compute; reflexivity|]. split; [left|].
  split; vm_compute; reflexivity.
Qed.

(** The same on every source: no name of the script's allow-list is in its
    table, and its reduced file never holds a function. *)
Lemma reduced_file_keeps_nothing unicode_alnum lines :
  reduced_text unicode_alnum keep_functions_src lines
    (find_functions unicode_alnum FUNCTION_MAP_src lines)
  = join (preamble unicode_alnum lines) ++ namespace_close.
Proof.
  assert (Forall (λ func_name, FUNCTION_MAP_src !! func_name = None)
            keep_functions_src) as Hkeep.
  { repeat constructor. }
  unfold reduced_text. f_equal. rewrite <-(app_nil_l namespace_close) at 2.
  f_equal. induction Hkeep as [|func_name l Hnone _ IH]; [done|].
  rewrite fmap_cons. cbn [concat].
  destruct (unclassified_never_recorded unicode_alnum _ lines _ Hnone)
    as [_ ->].
  done.
Qed.

(** C4, as stated, fails: of two overloads of [generateExpr] only the
    second has a record, and the text of the first is in no file. *)
Lemma first_overload_lost :
  ¬ every_occurrence_emitted no_unicode FUNCTION_MAP_src keep_functions_src.
Proof.
  intros H.
  destruct (H overload_lines _ (lit "generateExpr", 0, 4, key_name Expr)
              eq_refl) as (path & text & Hin & Hpath & Hsub).
  { vm_compute. left. }
  vm_compute in Hin.
  apply elem_of_cons in Hin as [[= -> ->]|Hin].
  { vm_compute in Hsub. discriminate Hsub. }
  apply list_elem_of_singleton in Hin as [= -> ->]. by apply Hpath.
Qed.

Example overload_records :
  find_functions no_unicode FUNCTION_MAP_src overload_lines
  = [(lit "generateExpr", (4, 8, key_name Expr))]
  ∧ find_functions_log no_unicode FUNCTION_MAP_src overload_lines
    = [(lit "generateExpr", 0, 4, key_name Expr);
       (lit "generateExpr", 4, 8, key_name Expr)].
Proof. split; vm_compute; reflexivity. Qed.

(** The order of [functions] is not the order of the source when a name
    comes again: the record keeps the place of the first occurrence and
    the extent of the last, and the sort puts the partition in order. *)
Example sort_is_needed :
  find_functions no_unicode FUNCTION_MAP_src interleaved_lines
  = [ (lit "generateExpr", (6, 9, key_name Expr));
      (lit "generateCallExpr", (3, 6, key_name Expr)) ]
  ∧ outputs no_unicode FUNCTION_MAP_src keep_functions_src interleaved_lines
    = inr [ (filename Expr,
             partition_text interleaved_lines Expr
               [(lit "generateCallExpr", 3, 6); (lit "generateExpr", 6, 9)]);
            (reduced_path, namespace_close) ].
Proof. split; vm_compute; reflexivity. Qed.

(** C5, as stated, fails: a static member defined ahead of the first
    function is no function-definition header, yet its line ends the
    preamble, so that the reduced file lacks a line that precedes the
    first header. *)
Lemma preamble_ends_early :
  ¬ reduced_starts_with_header_preamble no_unicode FUNCTION_MAP_src
      keep_functions_src.
Proof.
  intros H. specialize (H member_lines). vm_compute in H. discriminate H.
Qed.

Example member_preambles :
  header_preamble no_unicode member_lines = take 2 member_lines
  ∧ preamble no_unicode member_lines = take 1 member_lines.
Proof. split; vm_compute; reflexivity. Qed.

(** ** The theorems with hypotheses, on the example source *)

Lemma closed_extent_spans_two_lines_witness :
  let x := (lit "generateStmt", (1, 7, key_name Stmt)) in
  x ∈ find_functions no_unicode FUNCTION_MAP_src ex_lines
  ∧ is_Some (scan_body (drop (item_start x + 1) ex_lines) (item_start x + 1)
               0%Z false)
  ∧ item_start x + 2 ≤ item_end x
  ∧ ∀ header,
      extent_end (<[item_start x := header]> ex_lines) (item_start x)
      = item_end x.
Proof.
  intros x.
  assert (x ∈ find_functions no_unicode FUNCTION_MAP_src ex_lines) as Hx.
  { vm_compute. left. }
  assert (is_Some (scan_body (drop (item_start x + 1) ex_lines)
                     (item_start x + 1) 0%Z false)) as Hclosed.
  { vm_compute. eauto. }
  destruct (closed_extent_spans_two_lines no_unicode FUNCTION_MAP_src
              ex_lines x Hx) as [Hspan Hheader].
  split; [exact Hx|]. split; [exact Hclosed|].
  split; [exact (Hspan Hclosed)|exact Hheader].
Defined.

Lemma partition_files_in_source_order_witness :
  let text :=
    partition_text ex_lines Stmt
      [(lit "generateStmt", 1, 7); (lit "generateLetStmt", 14, 17)] in
  outputs no_unicode FUNCTION_MAP_src keep_functions_src ex_lines = inr ex_ws
  ∧ (filename Stmt, text) ∈ ex_ws
  ∧ filename Stmt ≠ reduced_path
  ∧ ∃ k funcs,
      filename Stmt = filename k
      ∧ text = partition_text ex_lines k funcs
      ∧ StronglySorted by_start funcs
      ∧ funcs ≡ₚ members k (find_functions no_unicode FUNCTION_MAP_src ex_lines).
Proof.
  intros text.
  assert (outputs no_unicode FUNCTION_MAP_src keep_functions_src ex_lines
          = inr ex_ws) as Hws by (vm_compute; reflexivity).
  assert ((filename Stmt, text) ∈ ex_ws) as Hin by (vm_compute; left).
  assert (filename Stmt ≠ reduced_path) as Hpath
    by (intros H; vm_compute in H; discriminate H).
  split; [exact Hws|]. split; [exact Hin|]. split; [exact Hpath|].
  exact (partition_files_in_source_order no_unicode FUNCTION_MAP_src
           keep_functions_src ex_lines ex_ws (filename Stmt) text
           Hws Hin Hpath).
Defined.

Lemma input_file_untouched_witness :
  let fs' := foldl write_file ex_fs ex_ws in
  main no_unicode FUNCTION_MAP_src keep_functions_src ex_fs = inr fs'
  ∧ fs' !! input_path = ex_fs !! input_path
  ∧ (∀ path, is_output_path path → path ≠ input_path)
  ∧ ∀ path, ¬ is_output_path path → fs' !! path = ex_fs !! path.
Proof.
  intros fs'.
  assert (main no_unicode FUNCTION_MAP_src keep_functions_src ex_fs = inr fs')
    as Hmain by (vm_compute; reflexivity).
  split; [exact Hmain|].
  exact (input_file_untouched no_unicode FUNCTION_MAP_src keep_functions_src
           ex_fs fs' Hmain).
Defined.

Lemma rerun_reproduces_outputs_witness :
  let out1 := foldl write_file ex_fs ex_ws in
  ex_fs !! input_path = ex_fs_stale !! input_path
  ∧ main no_unicode FUNCTION_MAP_src keep_functions_src ex_fs = inr out1
  ∧ main no_unicode FUNCTION_MAP_src keep_functions_src out1 = inr out1
  ∧ ∃ text ws out2,
      ex_fs !! input_path = Some text
      ∧ outputs no_unicode FUNCTION_MAP_src keep_functions_src (readlines text)
        = inr ws
      ∧ main no_unicode FUNCTION_MAP_src keep_functions_src ex_fs_stale
        = inr out2
      ∧ (∀ path, path ∈ ws.*1 →
           is_Some (out1 !! path) ∧ out1 !! path = out2 !! path)
      ∧ (∀ path, path ∉ ws.*1 →
           out1 !! path = ex_fs !! path ∧ out2 !! path = ex_fs_stale !! path).
Proof.
  intros out1.
  assert (ex_fs !! input_path = ex_fs_stale !! input_path) as Hsame
    by (vm_compute; reflexivity).
  assert (main no_unicode FUNCTION_MAP_src keep_functions_src ex_fs = inr out1)
    as Hmain by (vm_compute; reflexivity).
  split; [exact Hsame|]. split; [exact Hmain|].
  exact (rerun_reproduces_outputs no_unicode FUNCTION_MAP_src
           keep_functions_src ex_fs ex_fs_stale out1 Hsame Hmain).
Defined.

(** ** More of the script, on its own configuration and on the examples *)



(** A target that is no key, met by a header of the source. *)
Example unknown_target_key_error :
  outputs no_unicode claim_table claim_allow shaped_lines
  = inl (KeyError (lit "cat1")).
Proof. vm_compute. reflexivity. Qed.

Lemma records_are_classified_headers_witness :
  let x := (lit "generateStmt", (1, 7, key_name Stmt)) in
  x ∈ find_functions no_unicode FUNCTION_MAP_src ex_lines
  ∧ ∃ line m,
      ex_lines !! item_start x = Some line
      ∧ re_match no_unicode header_re line = Some m
      ∧ x.1 = group 2 m
      ∧ FUNCTION_MAP_src !! x.1 = Some x.2.2
      ∧ item_end x = extent_end ex_lines (item_start x).
Proof.
  intros x.
  assert (x ∈ find_functions no_unicode FUNCTION_MAP_src ex_lines) as Hx.
  { vm_compute. left. }
  split; [exact Hx|].
  exact (records_are_classified_headers no_unicode FUNCTION_MAP_src
           ex_lines x Hx).
Defined.

Lemma classified_headers_found_witness :
  let line := lit "void CodeGenerator::generateLetStmt()" ++ nl in
  let m := [lit "void"; lit "generateLetStmt"] in
  ex_lines !! 14 = Some line
  ∧ re_match no_unicode header_re line = Some m
  ∧ FUNCTION_MAP_src !! group 2 m = Some (key_name Stmt)
  ∧ ((group 2 m, 14, extent_end ex_lines 14, key_name Stmt)
       ∈ find_functions_log no_unicode FUNCTION_MAP_src ex_lines
     ∨ ∃ r, r ∈ find_functions_log no_unicode FUNCTION_MAP_src ex_lines
            ∧ found_start r < 14 < found_end r).
Proof.
  intros line m.
  assert (ex_lines !! 14 = Some line) as Hline by (vm_compute; reflexivity).
  assert (re_match no_unicode header_re line = Some m) as Hm
    by (vm_compute; reflexivity).
  assert (FUNCTION_MAP_src !! group 2 m = Some (key_name Stmt)) as Ht
    by (vm_compute; reflexivity).
  split; [exact Hline|]. split; [exact Hm|]. split; [exact Ht|].
  exact (classified_headers_found no_unicode FUNCTION_MAP_src ex_lines 14
           line m (key_name Stmt) Hline Hm Ht).
Defined.

Lemma unclosed_extent_is_last_witness :
  let r := (lit "generateStmt", 0, 4, key_name Stmt) in
  r ∈ find_functions_log no_unicode FUNCTION_MAP_src unclosed_lines
  ∧ scan_body (drop (found_start r + 1) unclosed_lines) (found_start r + 1)
      0%Z false = None
  ∧ found_end r = length unclosed_lines
  ∧ last (find_functions_log no_unicode FUNCTION_MAP_src unclosed_lines)
    = Some r.
Proof.
  intros r.
  assert (r ∈ find_functions_log no_unicode FUNCTION_MAP_src unclosed_lines)
    as Hr by (vm_compute; left).
  assert (scan_body (drop (found_start r + 1) unclosed_lines)
            (found_start r + 1) 0%Z false = None) as Hopen
    by (vm_compute; reflexivity).
  split; [exact Hr|]. split; [exact Hopen|].
  exact (unclosed_extent_is_last no_unicode FUNCTION_MAP_src unclosed_lines r
           Hr Hopen).
Defined.

Lemma extent_relocates_witness :
  let body := [lit "{" ++ nl; lit "  return;" ++ nl; lit "}" ++ nl; nl] in
  scan_body body 0 0%Z false = Some 3
  ∧ ∀ (pre : list str) (header : str) (more : list str),
      extent_end (pre ++ header :: body ++ more) (length pre)
      = length pre + 1 + 3.
Proof.
  intros body.
  assert (scan_body body 0 0%Z false = Some 3) as Hbody
    by (vm_compute; reflexivity).
  split; [exact Hbody|]. exact (extent_relocates body 3 Hbody).
Defined.

Lemma files_written_witness :
  outputs no_unicode FUNCTION_MAP_src keep_functions_src ex_lines = inr ex_ws
  ∧ (∀ k, filename k ∈ ex_ws.*1 ↔
          ∃ x, x ∈ find_functions no_unicode FUNCTION_MAP_src ex_lines
               ∧ x.2.2 = key_name k)
  ∧ last ex_ws
    = Some (reduced_path,
            reduced_text no_unicode keep_functions_src ex_lines
              (find_functions no_unicode FUNCTION_MAP_src ex_lines))
  ∧ NoDup ex_ws.*1.
Proof.
  assert (outputs no_unicode FUNCTION_MAP_src keep_functions_src ex_lines
          = inr ex_ws) as Hws by (vm_compute; reflexivity).
  split; [exact Hws|].
  exact (files_written no_unicode FUNCTION_MAP_src keep_functions_src
           ex_lines ex_ws Hws).
Defined.

Lemma record_in_one_partition_witness :
  let x := (lit "generateLetStmt", (14, 17, key_name Stmt)) in
  outputs no_unicode FUNCTION_MAP_src keep_functions_src ex_lines = inr ex_ws
  ∧ x ∈ find_functions no_unicode FUNCTION_MAP_src ex_lines
  ∧ ∃ k text before after,
      x.2.2 = key_name k
      ∧ (filename k, text) ∈ ex_ws
      ∧ text = before ++ func_text ex_lines (item_start x) (item_end x)
               ++ after ++ namespace_close
      ∧ ∀ k', (x.1, item_start x, item_end x)
              ∈ members k' (find_functions no_unicode FUNCTION_MAP_src ex_lines)
              → k' = k.
Proof.
  intros x.
  assert (outputs no_unicode FUNCTION_MAP_src keep_functions_src ex_lines
          = inr ex_ws) as Hws by (vm_compute; reflexivity).
  assert (x ∈ find_functions no_unicode FUNCTION_MAP_src ex_lines) as Hx
    by (vm_compute; find_elem).
  split; [exact Hws|]. split; [exact Hx|].
  exact (record_in_one_partition no_unicode FUNCTION_MAP_src
           keep_functions_src ex_lines ex_ws x Hws Hx).
Defined.

Lemma files_after_run_witness :
  let fs' := foldl write_file ex_fs ex_ws in
  main no_unicode FUNCTION_MAP_src keep_functions_src ex_fs = inr fs'
  ∧ ∃ text ws,
      ex_fs !! input_path = Some text
      ∧ outputs no_unicode FUNCTION_MAP_src keep_functions_src (readlines text)
        = inr ws
      ∧ (∀ path t, (path, t) ∈ ws → fs' !! path = Some t)
      ∧ (∀ path, path ∉ ws.*1 → fs' !! path = ex_fs !! path)
      ∧ input_path ∉ ws.*1.
Proof.
  intros fs'.
  assert (main no_unicode FUNCTION_MAP_src keep_functions_src ex_fs = inr fs')
    as Hmain by (vm_compute; reflexivity).
  split; [exact Hmain|].
  exact (files_after_run no_unicode FUNCTION_MAP_src keep_functions_src
           ex_fs fs' Hmain).
Defined.

Lemma source_without_headers_witness :
  let fs : gmap str str := {[ input_path := plain_text ]} in
  fs !! input_path = Some plain_text
  ∧ Forall (λ line, re_match no_unicode prefix_re line = None)
      (readlines plain_text)
  ∧ main no_unicode FUNCTION_MAP_src keep_functions_src fs
    = inr (<[reduced_path := plain_text ++ namespace_close]> fs).
Proof.
  intros fs.
  assert (fs !! input_path = Some plain_text) as Htext
    by (vm_compute; reflexivity).
  assert (Forall (λ line, re_match no_unicode prefix_re line = None)
            (readlines plain_text)) as Hlines
    by (vm_compute; repeat constructor).
  split; [exact Htext|]. split; [exact Hlines|].
  exact (source_without_headers no_unicode FUNCTION_MAP_src
           keep_functions_src fs plain_text Htext Hlines).
Defined.

(** * The installer scripts *)

Lemma call_code {A} (run : A → outcome) (a : A) (k : bool → nat * list A) :
  (call run a k).1 = 0 ↔ ∃ b, run a = Returns b ∧ (k b).1 = 0.
Proof.
  unfold call. destruct (run a) as [b|].
  - destruct (k b) as [code tr] eqn:Hk. split.
    + intros ?. exists b. by rewrite Hk.
    + intros (b' & [= <-] & ?). by rewrite Hk in *.
  - split; [done|]. by intros (? & ? & _).
Qed.

Lemma call_elem {A} (run : A → outcome) (a : A) (k : bool → nat * list A)
    (x : A) :
  x ∈ (call run a k).2 ↔ x = a ∨ ∃ b, run a = Returns b ∧ x ∈ (k b).2.
Proof.
  unfold call. destruct (run a) as [b|].
  - destruct (k b) as [code tr] eqn:Hk. cbn. rewrite elem_of_cons. split.
    + intros [?|?]; [by left|]. right. exists b. by rewrite Hk.
    + intros [?|(b' & [= <-] & ?)]; [by left|]. right. by rewrite Hk in *.
  - cbn. rewrite list_elem_of_singleton. split; [by left|].
    by intros [?|(? & ? & _)].
Qed.

Lemma call_returns {A} (run : A → outcome) (a : A) (k : bool → nat * list A)
    (b : bool) :
  run a = Returns b → call run a k = ((k b).1, a :: (k b).2).
Proof. unfold call. intros ->. by destruct (k b). Qed.

Lemma ask_code {A} (answer : option str) (k : str → nat * list A) :
  (ask answer k).1 = 0
  ↔ ∃ response, answer = Some response ∧ (k response).1 = 0.
Proof.
  destruct answer as [response|]; cbn.
  - split; [by exists response|]. by intros (? & [= <-] & ?).
  - split; [done|]. by intros (? & ? & _).
Qed.

Lemma ask_elem {A} (answer : option str) (k : str → nat * list A) (x : A) :
  x ∈ (ask answer k).2
  ↔ ∃ response, answer = Some response ∧ x ∈ (k response).2.
Proof.
  destruct answer as [response|]; cbn.
  - split; [by exists response|]. by intros (? & [= <-] & ?).
  - split; [by intros ?%elem_of_nil|]. by intros (? & ? & _).
Qed.

(** From a fact about the calls or the exit code of a run, back through
    the calls and prompts of [main] that lead to it. *)
Ltac run_inv H :=
  repeat first
    [ progress cbn [negb orb andb fst snd] in H
    | match type of H with
      | _ ∈ (call _ _ _).2 => apply call_elem in H as [H | ([] & ? & H)]
      | (call _ _ _).1 = 0 => apply call_code in H as ([] & ? & H)
      | _ ∈ (ask _ _).2 => apply ask_elem in H as (? & ? & H)
      | (ask _ _).1 = 0 => apply ask_code in H as (? & ? & H)
      | _ ∈ [] => apply elem_of_nil in H as []
      | context [bool_decide ?P] => destruct (bool_decide_reflect P)
      end ].

(** The run along calls that are known to return and prompts that are
    known to be answered. *)
Ltac run_along :=
  repeat first
    [ match goal with
      | Hr : ?run ?a = Returns ?b |- context [call ?run ?a ?k] =>
          rewrite (call_returns run a k b Hr)
      | Ha : ?answer = Some ?response |- context [ask ?answer ?k] =>
          rewrite Ha
      | Hp : ?P |- context [bool_decide ?P] =>
          rewrite (bool_decide_eq_true_2 P Hp)
      | Hn : ¬ ?P |- context [bool_decide ?P] =>
          rewrite (bool_decide_eq_false_2 P Hn)
      end
    | progress cbn [ask negb orb andb fst snd] ].

(** A list that is written out does not hold [x]. *)
Ltac not_elem :=
  let H := fresh in
  intros H; repeat (apply elem_of_cons in H as [H|H]; [done|]);
  by apply elem_of_nil in H.

(** X13. The dependency check of [setup_llvm.py] and the one at the head
    of [main()] of [build_llvm.py] agree: the first returns [True] exactly
    when cmake, ninja and a C++ compiler are found ([cl] or [g++] on
    Windows, [g++] or [clang++] elsewhere), which is when nothing is
    listed as missing; the second goes on exactly then, with the same
    compiler, and returns 1 otherwise. *)
Theorem dependency_checks_agree (check_command : str → bool) (system : str) :
  let r := SetupLLVM.check_dependencies check_command system in
  let compiler :=
    if decide (system = lit "Windows")
    then check_command (lit "cl") || check_command (lit "g++")
    else check_command (lit "g++") || check_command (lit "clang++") in
  r.1.1 = check_command (lit "cmake") && check_command (lit "ninja")
          && compiler
  ∧ (r.1.1 = true ↔ r.1.2 = [])
  ∧ (is_Some r.2 ↔ compiler = true)
  ∧ BuildLLVM.check_dependencies check_command system
    = if r.1.1 then r.2 else None.
Proof.
  unfold SetupLLVM.check_dependencies, BuildLLVM.check_dependencies.
  destruct (check_command (lit "cmake")), (check_command (lit "ninja")),
    (decide (system = lit "Windows")), (check_command (lit "cl")),
    (check_command (lit "g++")), (check_command (lit "clang++"));
    cbn -[lit]; repeat split; try done;
    try (by intros [? [=]]); by eexists.
Qed.

Section setup_llvm.
Import SetupLLVM.

Lemma setup_fetch_calls (e : env) (method : str) (x : action) :
  x ∈ (main_fetch e method).2 →
  x ∈ [DownloadWithGit; DownloadArchive; VerifySource; MakeBuildDir;
       MakeInstallDir].
Proof.
  unfold main_fetch. intros H. run_inv H; subst; find_elem.
Qed.

Lemma setup_download_calls (e : env) (x : action) :
  x ∈ (main_download e).2 →
  x ∈ [MakeLlvmDir; DownloadWithGit; DownloadArchive; VerifySource;
       MakeBuildDir; MakeInstallDir].
Proof.
  unfold main_download, main_fetch. intros H.
  destruct (yes e); run_inv H; subst; find_elem.
Qed.

Lemma setup_download_starts (e : env) : main_download e ≠ (0, []).
Proof.
  unfold main_download.
  assert (∀ k, call (run e) MakeLlvmDir k ≠ (0, [])) as Hcall.
  { intros k. unfold call. destruct (run e MakeLlvmDir); [|done].
    by destruct (k b). }
  destruct (yes e); cbn [negb]; [done|].
  destruct (answer_continue e) as [response|]; [|done].
  cbn [ask]. by case_bool_decide.
Qed.

(** X14. [setup_llvm.py] removes a source tree that is there exactly when
    it runs without [--yes] and the answer to its first question is [y];
    and it exits with 0 without any call (nothing removed, created or
    downloaded) exactly when the source is there and it runs with [--yes]
    or the answer is something else. *)
Theorem setup_keeps_source_unless_asked (e : env) :
  (RemoveSource ∈ (main e).2
   ↔ source_exists e = true ∧ yes e = false
     ∧ answer_redownload e = Some (lit "y"))
  ∧ (main e = (0, [])
     ↔ source_exists e = true
       ∧ (yes e = true
          ∨ ∃ response,
              answer_redownload e = Some response ∧ response ≠ lit "y")).
Proof.
  assert (RemoveSource ∉ (main_download e).2) as Hnot.
  { intros H%setup_download_calls. by repeat apply elem_of_cons in H as [|H];
      try apply elem_of_nil in H. }
  pose proof (setup_download_starts e) as Hstart.
  unfold main. destruct (source_exists e), (yes e); cbn [negb]; split.
  - split; [by intros ?%elem_of_nil|]. by intros (_ & ? & _).
  - split; [intros _; split; [done|by left]|done].
  - split.
    + intros (response & Hr & H)%ask_elem.
      case_bool_decide as Hy; [|by apply elem_of_nil in H]. by subst.
    + intros (_ & _ & ->). cbn [ask]. rewrite bool_decide_true by done.
      apply call_elem. by left.
  - destruct (answer_redownload e) as [response|]; cbn [ask].
    + case_bool_decide as Hy; cbn [negb].
      * split.
        -- unfold call. destruct (run e RemoveSource); [|done].
           by destruct (main_download e).
        -- intros (_ & [?|(? & [= <-] & ?)]); done.
      * split; [|done]. intros _. split; [done|]. right. by exists response.
    + split; [done|]. intros (_ & [?|(? & ? & _)]); done.
  - split; [done|]. by intros (? & _).
  - split; [done|]. by intros (? & _).
  - split; [done|]. by intros (? & _).
  - split; [done|]. by intros (? & _).
Qed.

Lemma setup_fetch_success (e : env) (method : str) :
  (main_fetch e method).1 = 0 →
  ∃ fetch,
    (fetch = DownloadWithGit ∨ fetch = DownloadArchive)
    ∧ run e fetch = Returns true ∧ run e VerifySource = Returns true
    ∧ (main_fetch e method).2
      = [fetch; VerifySource; MakeBuildDir; MakeInstallDir].
Proof.
  unfold main_fetch. intros H. destruct (_ || _).
  - exists DownloadWithGit. run_inv H; try done; run_along;
      (split; [by left|done]).
  - exists DownloadArchive. run_inv H; try done; run_along;
      (split; [by right|done]).
Qed.

Lemma setup_download_success (e : env) :
  (main_download e).1 = 0 →
  ∃ fetch,
    (fetch = DownloadWithGit ∨ fetch = DownloadArchive)
    ∧ run e fetch = Returns true ∧ run e VerifySource = Returns true
    ∧ (main_download e).2
      = [MakeLlvmDir; fetch; VerifySource; MakeBuildDir; MakeInstallDir].
Proof.
  unfold main_download. intros H.
  destruct (yes e); cbn [negb] in *.
  - apply call_code in H as (b & Hb & H).
    rewrite (call_returns _ _ _ _ Hb).
    destruct (setup_fetch_success e _ H) as (fetch & ? & ? & ? & Htr).
    exists fetch. by rewrite <-Htr.
  - apply ask_code in H as (response & -> & H). cbn [ask].
    case_bool_decide; [done|].
    apply call_code in H as (b & Hb & H).
    rewrite (call_returns _ _ _ _ Hb).
    apply ask_code in H as (method_input & -> & H). cbn [ask].
    destruct (setup_fetch_success e _ H) as (fetch & ? & ? & ? & Htr).
    exists fetch. by rewrite <-Htr.
Qed.

(** X15. When [setup_llvm.py] exits with 0, either it made no call at all
    (the source was there and was kept), or one of the two downloads
    returned [True], [verify_source] returned [True] after it, and the
    last calls of the run are this download, the verification and the
    creation of the build and install directories. *)
Theorem setup_success (e : env) :
  (main e).1 = 0 →
  (main e).2 = []
  ∨ ∃ fetch pre,
      (fetch = DownloadWithGit ∨ fetch = DownloadArchive)
      ∧ run e fetch = Returns true ∧ run e VerifySource = Returns true
      ∧ (main e).2
        = pre ++ [fetch; VerifySource; MakeBuildDir; MakeInstallDir].
Proof.
  unfold main. intros H.
  destruct (source_exists e), (yes e); cbn [negb] in *.
  - by left.
  - apply ask_code in H as (response & -> & H). cbn [ask].
    case_bool_decide; cbn [negb] in *; [|by left].
    right. apply call_code in H as (b & Hb & H).
    rewrite (call_returns _ _ _ _ Hb).
    destruct (setup_download_success e H) as (fetch & ? & ? & ? & Htr).
    exists fetch, [RemoveSource; MakeLlvmDir]. by rewrite Htr.
  - right. destruct (setup_download_success e H) as (fetch & ? & ? & ? & ->).
    by exists fetch, [MakeLlvmDir].
  - right. destruct (setup_download_success e H) as (fetch & ? & ? & ? & ->).
    by exists fetch, [MakeLlvmDir].
Qed.

Lemma setup_fetch_method (e : env) (method : str) (fetch : action) :
  fetch ∈ (main_fetch e method).2 →
  fetch = DownloadWithGit ∨ fetch = DownloadArchive →
  fetch = DownloadWithGit ↔ method = lit "git" ∨ method = lit "1".
Proof.
  unfold main_fetch. intros H Hfetch.
  destruct (bool_decide (method = lit "git")) eqn:Hgit;
    destruct (bool_decide (method = lit "1")) eqn:Hone; cbn [orb] in H;
    try apply bool_decide_eq_true in Hgit;
    try apply bool_decide_eq_true in Hone;
    try apply bool_decide_eq_false in Hgit;
    try apply bool_decide_eq_false in Hone;
    run_inv H; subst; destruct Hfetch as [?|?]; try done;
    try (split; [by auto|done]);
    split; try done; by intros [?|?].
Qed.

(** X16. Which download [setup_llvm.py] calls: with [--yes] it is the git
    clone exactly when [--method] is [git] (the default); without
    [--yes], [--method] is not looked at, and it is the git clone exactly
    when the answer to the last question is [1]: any other answer, the
    empty one too, gives the archive. *)
Theorem setup_download_method (e : env) (fetch : action) :
  fetch ∈ (main e).2 →
  fetch = DownloadWithGit ∨ fetch = DownloadArchive →
  if yes e
  then fetch = DownloadWithGit ↔ method e = lit "git" ∨ method e = lit "1"
  else ∃ method_input,
         answer_method e = Some method_input
         ∧ (fetch = DownloadWithGit ↔ method_input = lit "1").
Proof.
  intros H Hfetch.
  assert (fetch ∈ (main_download e).2) as Hd.
  { unfold main in H. destruct (source_exists e); [|done].
    destruct (yes e); cbn [negb] in H; [by apply elem_of_nil in H|].
    apply ask_elem in H as (response & _ & H).
    case_bool_decide; cbn [negb] in H; [|by apply elem_of_nil in H].
    apply call_elem in H as [-> | (_ & _ & H)]; [by destruct Hfetch|done]. }
  clear H. unfold main_download in Hd.
  assert (fetch ≠ MakeLlvmDir) as Hne by (by destruct Hfetch as [-> | ->]).
  destruct (yes e); cbn [negb] in Hd.
  - apply call_elem in Hd as [-> | (_ & _ & Hd)]; [done|].
    by apply (setup_fetch_method e).
  - apply ask_elem in Hd as (response & _ & Hd).
    case_bool_decide; [by apply elem_of_nil in Hd|].
    apply call_elem in Hd as [-> | (_ & _ & Hd)]; [done|].
    apply ask_elem in Hd as (method_input & Hm & Hd).
    exists method_input. split; [done|].
    rewrite (setup_fetch_method e _ _ Hd Hfetch).
    case_bool_decide as H1; split; try done; auto.
    by intros [?|?].
Qed.

Lemma setup_keeps_source_unless_asked_witness :
  RemoveSource ∈ (main ex_env).2 ∧ main ex_env ≠ (0, []).
Proof.
  destruct (setup_keeps_source_unless_asked ex_env) as [Hremove Hnone].
  split.
  - apply Hremove. by vm_compute.
  - intros [_ [[=]|(response & [= <-] & Hne)]]%Hnone. by apply Hne.
Defined.

Lemma setup_success_witness :
  (main ex_env).1 = 0
  ∧ ((main ex_env).2 = []
     ∨ ∃ fetch pre,
         (fetch = DownloadWithGit ∨ fetch = DownloadArchive)
         ∧ run ex_env fetch = Returns true
         ∧ run ex_env VerifySource = Returns true
         ∧ (main ex_env).2
           = pre ++ [fetch; VerifySource; MakeBuildDir; MakeInstallDir]).
Proof.
  assert ((main ex_env).1 = 0) as Hcode by (vm_compute; reflexivity).
  split; [exact Hcode|].
  exact (setup_success ex_env Hcode).
Defined.

Lemma setup_download_method_witness :
  DownloadArchive ∈ (main ex_env).2
  ∧ ∃ method_input,
      answer_method ex_env = Some method_input
      ∧ (DownloadArchive = DownloadWithGit ↔ method_input = lit "1").
Proof.
  assert (DownloadArchive ∈ (main ex_env).2) as Hin
    by (vm_compute; find_elem).
  split; [exact Hin|].
  exact (setup_download_method ex_env DownloadArchive Hin
           (or_intror eq_refl)).
Defined.

End setup_llvm.

Section build_llvm.
Import BuildLLVM.

Lemma build_prepare_calls (e : env) (x : action) :
  x ∈ (main_prepare e).2 → x ≠ CleanBuildDir.
Proof.
  unfold main_prepare, main_build. intros H.
  destruct (interactive e); run_inv H; by subst.
Qed.

Lemma build_dependencies (e : env) :
  (main e).2 ≠ [] ∨ (main e).1 = 0 →
  source_exists e = true
  ∧ is_Some (check_dependencies (check_command e) (system e)).
Proof.
  unfold main. destruct (source_exists e); cbn [negb].
  - destruct (check_dependencies _ _); [by eauto|]. by intros [?|?].
  - by intros [?|?].
Qed.

Lemma build_build_install (e : env) (cores : Z) :
  NinjaInstall ∈ (main_build e cores).2 →
  ∃ targets,
    (main_build e cores).2
    = [ChangeDir; Configure targets; NinjaBuild cores; NinjaInstall]
    ∧ run e (Configure targets) = Returns true
    ∧ run e (NinjaBuild cores) = Returns true.
Proof.
  unfold main_build. intros H.
  exists (if bool_decide (system e = lit "Darwin")
          then lit "-DLLVM_TARGETS_TO_BUILD=AArch64;X86"
          else lit "-DLLVM_TARGETS_TO_BUILD=X86").
  run_inv H; try done; run_along; unfold call;
    by destruct (run e NinjaInstall) as [[]|].
Qed.

Lemma build_build_success (e : env) (cores : Z) :
  (main_build e cores).1 = 0 →
  NinjaInstall ∈ (main_build e cores).2 ∧ run e NinjaInstall = Returns true.
Proof.
  unfold main_build. intros H.
  run_inv H; try done; run_along; (split; [find_elem|done]).
Qed.

Lemma build_prepare_install (e : env) :
  NinjaInstall ∈ (main_prepare e).2 →
  let cores :=
    if (0 <? jobs e)%Z then jobs e else default 4%Z (cpu_count e) in
  NinjaInstall ∈ (main_build e cores).2
  ∧ (main_prepare e).2
    = [MakeBuildDir; MakeInstallDir] ++ (main_build e cores).2.
Proof.
  intros H cores. unfold main_prepare, get_cpu_count in *.
  fold cores in H |- *.
  destruct (interactive e); run_inv H; try done; by run_along.
Qed.

Lemma build_prepare_success (e : env) :
  (main_prepare e).1 = 0 →
  (NinjaInstall ∈ (main_prepare e).2 ∧ run e NinjaInstall = Returns true)
  ∨ (interactive e = true ∧ answer_continue e = Some (lit "n")
     ∧ (main_prepare e).2 = [MakeBuildDir; MakeInstallDir]).
Proof.
  unfold main_prepare. intros H.
  destruct (interactive e); run_inv H; subst; run_along;
    first [ by right
          | left; apply build_build_success in H as [? ?];
            split; [by do 2 apply list_elem_of_further|done] ].
Qed.

(** X17. When [build_llvm.py] calls [ninja install], the source and the
    build tools were found, the last four calls of the run are
    [os.chdir], cmake, [ninja -j] and [ninja install], in this order,
    cmake and [ninja -j] returned without error, and the number of jobs
    is [--jobs] when it is positive and the number of cores (4 when it is
    not known) otherwise. *)
Theorem build_install_follows_build (e : env) :
  NinjaInstall ∈ (main e).2 →
  let cores :=
    if (0 <? jobs e)%Z then jobs e else default 4%Z (cpu_count e) in
  source_exists e = true
  ∧ is_Some (check_dependencies (check_command e) (system e))
  ∧ ∃ pre targets,
      (main e).2
      = pre ++ [ChangeDir; Configure targets; NinjaBuild cores; NinjaInstall]
      ∧ run e (Configure targets) = Returns true
      ∧ run e (NinjaBuild cores) = Returns true.
Proof.
  intros H cores.
  destruct (build_dependencies e) as [Hsrc Hdeps].
  { left. intros Hnil. rewrite Hnil in H. by apply elem_of_nil in H. }
  split; [done|]. split; [done|].
  unfold main in *. rewrite Hsrc in *. destruct Hdeps as [cxx Hdeps].
  rewrite Hdeps in *. cbn [negb] in *.
  destruct (clean e && build_exists e).
  - apply call_elem in H as [?|(b & Hb & H)]; [done|].
    rewrite (call_returns _ _ _ _ Hb).
    apply build_prepare_install in H as [H ->].
    apply build_build_install in H as (targets & -> & ? & ?).
    by exists [CleanBuildDir; MakeBuildDir; MakeInstallDir], targets.
  - apply build_prepare_install in H as [H ->].
    apply build_build_install in H as (targets & -> & ? & ?).
    by exists [MakeBuildDir; MakeInstallDir], targets.
Qed.

(** X18. When [build_llvm.py] exits with 0, the source and the build
    tools were found, and either [ninja install] was called and returned
    without error, or the script ran with [--interactive], the answer was
    [n], and nothing was called but the removal and the creation of
    directories: neither [os.chdir] nor cmake nor ninja. *)
Theorem build_success (e : env) :
  (main e).1 = 0 →
  source_exists e = true
  ∧ is_Some (check_dependencies (check_command e) (system e))
  ∧ ((NinjaInstall ∈ (main e).2 ∧ run e NinjaInstall = Returns true)
     ∨ (interactive e = true ∧ answer_continue e = Some (lit "n")
        ∧ ∀ x, x ∈ (main e).2 →
               x ∈ [CleanBuildDir; MakeBuildDir; MakeInstallDir])).
Proof.
  intros H.
  destruct (build_dependencies e) as [Hsrc Hdeps]; [by right|].
  split; [done|]. split; [done|].
  unfold main in *. rewrite Hsrc in *. destruct Hdeps as [cxx Hdeps].
  rewrite Hdeps in *. cbn [negb] in *.
  destruct (clean e && build_exists e).
  - apply call_code in H as (b & Hb & H).
    rewrite (call_returns _ _ _ _ Hb).
    apply build_prepare_success in H as [[? ?]|(? & ? & ->)].
    + left. split; [by apply list_elem_of_further|done].
    + by right.
  - apply build_prepare_success in H as [[? ?]|(? & ? & ->)].
    + by left.
    + right. split; [done|]. split; [done|].
      intros x Hx. by apply list_elem_of_further.
Qed.

(** X19. [build_llvm.py] removes the build directory exactly when the
    source and the build tools are found, [--clean] is given and the
    directory is there: the removal does not wait for the answer to
    [Continue build?], and happens also when the build is then cancelled
    or fails. *)
Theorem build_clean_before_prompt (e : env) :
  CleanBuildDir ∈ (main e).2
  ↔ source_exists e = true
    ∧ is_Some (check_dependencies (check_command e) (system e))
    ∧ clean e = true ∧ build_exists e = true.
Proof.
  unfold main. destruct (source_exists e); cbn [negb].
  - destruct (check_dependencies _ _) as [cxx|].
    + destruct (clean e), (build_exists e); cbn [andb]; split;
        try (by intros (_ & _ & ? & ?));
        try (by intros H%build_prepare_calls).
      * done.
      * intros _. apply call_elem. by left.
    + split; [by intros ?%elem_of_nil|]. by intros (_ & [? [=]] & _).
  - split; [by intros ?%elem_of_nil|]. by intros (? & _).
Qed.

Lemma build_install_follows_build_witness :
  NinjaInstall ∈ (main ex_env).2
  ∧ source_exists ex_env = true
  ∧ is_Some (check_dependencies (check_command ex_env) (system ex_env))
  ∧ ∃ pre targets,
      (main ex_env).2
      = pre ++ [ChangeDir; Configure targets; NinjaBuild 8; NinjaInstall]
      ∧ run ex_env (Configure targets) = Returns true
      ∧ run ex_env (NinjaBuild 8) = Returns true.
Proof.
  assert (NinjaInstall ∈ (main ex_env).2) as Hin
    by (vm_compute; find_elem).
  split; [exact Hin|].
  exact (build_install_follows_build ex_env Hin).
Defined.

Lemma build_success_witness :
  (main ex_cancel).1 = 0
  ∧ source_exists ex_cancel = true
  ∧ is_Some (check_dependencies (check_command ex_cancel) (system ex_cancel))
  ∧ ((NinjaInstall ∈ (main ex_cancel).2
      ∧ run ex_cancel NinjaInstall = Returns true)
     ∨ (interactive ex_cancel = true
        ∧ answer_continue ex_cancel = Some (lit "n")
        ∧ ∀ x, x ∈ (main ex_cancel).2 →
               x ∈ [CleanBuildDir; MakeBuildDir; MakeInstallDir])).
Proof.
  assert ((main ex_cancel).1 = 0) as Hcode by (vm_compute; reflexivity).
  split; [exact Hcode|].
  exact (build_success ex_cancel Hcode).
Defined.

End build_llvm.

Section install_llvm_complete.
Import InstallLLVM.

Lemma install_verify_calls (e : env) (x : action) :
  x ∈ (main_verify e).2 → x ∈ [Verify; Build; Test].
Proof.
  unfold main_verify, main_test. intros H.
  destruct (skip_build e), (skip_test e); run_inv H; subst; find_elem.
Qed.

Lemma install_download_calls (e : env) (filename : str)
    (skip_download : bool) (u f : str) :
  Download u f ∈ (main_download e filename skip_download).2 →
  f = filename ∧ u = url filename.
Proof.
  assert (Download u f ∉ (main_verify e).2) as Hverify.
  { intros H%install_verify_calls.
    repeat (apply elem_of_cons in H as [H|H]; [done|]).
    by apply elem_of_nil in H. }
  unfold main_download. intros H. destruct skip_download; cbn [negb] in H;
    [done|].
  run_inv H; try done; by injection H as -> ->.
Qed.

(** X20. With an installation in place ([bin/clang] or [bin/clang-19]),
    [install_llvm_complete.py] removes, downloads, extracts or installs
    something only when it runs without [--yes] and the answer to
    [Reinstall?] is [y]; otherwise all it calls is the verification, the
    build and the test. *)
Theorem install_keeps_existing_unless_asked (e : env) (x : action) :
  clang_exists e || clang19_exists e = true →
  x ∈ (main e).2 →
  (yes e = false ∧ answer_reinstall e = Some (lit "y"))
  ∨ x ∈ [Verify; Build; Test].
Proof.
  intros Hex H. unfold main in H.
  destruct (detect_platform _ _) as [[filename name]|];
    [|by apply elem_of_nil in H].
  rewrite Hex in H. destruct (yes e); cbn [negb] in H.
  - right. by apply (install_verify_calls e).
  - apply ask_elem in H as (response & Hr & H).
    case_bool_decide; cbn [negb] in H.
    + left. by subst.
    + right. by apply (install_verify_calls e).
Qed.

Lemma install_verify_success (e : env) :
  (main_verify e).1 = 0 →
  run e Verify = Returns true
  ∧ (skip_build e = true ∨ run e Build = Returns true)
  ∧ (main_verify e).2
    = Verify :: (if skip_build e then []
                 else Build :: if skip_test e then [] else [Test]).
Proof.
  unfold main_verify, main_test. intros H.
  destruct (skip_build e), (skip_test e); run_inv H; try done; run_along;
    (split; [done|]); (split; [by auto|done]).
Qed.

Lemma install_download_success (e : env) (filename : str) :
  (main_download e filename false).1 = 0 →
  (main_verify e).1 = 0
  ∧ run e (Download (url filename) filename) = Returns true
  ∧ run e Extract = Returns true ∧ run e Install = Returns true
  ∧ (main_download e filename false).2
    = [MakeLlvmDir; MakeTempDir; Download (url filename) filename;
       Extract; Install; RemoveTemp] ++ (main_verify e).2.
Proof.
  unfold main_download. cbn [negb]. intros H.
  run_inv H; try done; by run_along.
Qed.

(** X21. When [install_llvm_complete.py] exits with 0, the verification
    returned [True], the build was skipped or returned [True], and the
    run ends with the verification, the build unless skipped and the
    test unless skipped. Before these it either called nothing and an
    installation was in place, or it created the directories, downloaded
    the archive, extracted it, installed it and removed the temporary
    directory, in this order, and the three returned [True]. *)
Theorem install_success (e : env) :
  (main e).1 = 0 →
  run e Verify = Returns true
  ∧ (skip_build e = true ∨ run e Build = Returns true)
  ∧ ∃ pre,
      (main e).2
      = pre ++ Verify :: (if skip_build e then []
                          else Build :: if skip_test e then [] else [Test])
      ∧ ((pre = [] ∧ clang_exists e || clang19_exists e = true)
         ∨ ∃ pre' filename,
             pre = pre' ++ [MakeLlvmDir; MakeTempDir;
                            Download (url filename) filename;
                            Extract; Install; RemoveTemp]
             ∧ run e (Download (url filename) filename) = Returns true
             ∧ run e Extract = Returns true
             ∧ run e Install = Returns true).
Proof.
  unfold main. intros H.
  destruct (detect_platform _ _) as [[filename name]|]; [|done].
  assert ((main_download e filename true).1 = 0 →
          clang_exists e || clang19_exists e = true →
          run e Verify = Returns true
          ∧ (skip_build e = true ∨ run e Build = Returns true)
          ∧ ∃ pre,
              (main_download e filename true).2
              = pre ++ Verify :: (if skip_build e then []
                                  else Build :: if skip_test e then []
                                                else [Test])
              ∧ ((pre = [] ∧ clang_exists e || clang19_exists e = true)
                 ∨ ∃ pre' filename,
                     pre = pre' ++ [MakeLlvmDir; MakeTempDir;
                                    Download (url filename) filename;
                                    Extract; Install; RemoveTemp]
                     ∧ run e (Download (url filename) filename)
                       = Returns true
                     ∧ run e Extract = Returns true
                     ∧ run e Install = Returns true)) as Hkeep.
  { intros (? & ? & Htr)%install_verify_success Hex.
    split; [done|]. split; [done|]. exists []. split; [done|]. by left. }
  assert (∀ pre',
          (main_download e filename false).1 = 0 →
          run e Verify = Returns true
          ∧ (skip_build e = true ∨ run e Build = Returns true)
          ∧ ∃ pre,
              pre' ++ (main_download e filename false).2
              = pre ++ Verify :: (if skip_build e then []
                                  else Build :: if skip_test e then []
                                                else [Test])
              ∧ ((pre = [] ∧ clang_exists e || clang19_exists e = true)
                 ∨ ∃ pre' filename,
                     pre = pre' ++ [MakeLlvmDir; MakeTempDir;
                                    Download (url filename) filename;
                                    Extract; Install; RemoveTemp]
                     ∧ run e (Download (url filename) filename)
                       = Returns true
                     ∧ run e Extract = Returns true
                     ∧ run e Install = Returns true)) as Hnew.
  { intros pre'
      ((? & ? & Htr)%install_verify_success & ? & ? & ? & ->)
        %install_download_success.
    split; [done|]. split; [done|]. rewrite Htr.
    eexists (pre' ++ [_; _; _; _; _; _]). split; [by rewrite <-app_assoc|].
    right. by exists pre', filename. }
  destruct (clang_exists e || clang19_exists e) eqn:Hex.
  - destruct (yes e); cbn [negb] in *; [by apply Hkeep|].
    apply ask_code in H as (response & -> & H). cbn [ask].
    case_bool_decide; cbn [negb] in *; [|by apply Hkeep].
    apply call_code in H as (b & Hb & H).
    rewrite (call_returns _ _ _ _ Hb). by apply (Hnew [RemoveInstall]).
  - by apply (Hnew []).
Qed.

Lemma call_ext {A} (run run' : A → outcome) (a : A)
    (k k' : bool → nat * list A) :
  run' a = run a → (∀ b, k' b = k b) → call run' a k' = call run a k.
Proof.
  unfold call. intros -> Hk. destruct (run a) as [b|]; [|done].
  by rewrite Hk.
Qed.

(** X22. What [run_test] returns does not change what
    [install_llvm_complete.py] does nor its exit code: a failed test only
    prints a warning. *)
Theorem install_test_result_ignored (e : env) (b b' : bool) :
  run e Test = Returns b →
  main (with_run e (<[Test := Returns b']> (run e))) = main e.
Proof.
  intros Hb. set (run' := <[Test := Returns b']> (run e)).
  assert (∀ a, a ≠ Test → run' a = run e a) as Hrun.
  { intros a Ha. by apply fn_lookup_insert_ne. }
  assert (main_test (with_run e run') = main_test e) as Htest.
  { unfold main_test. cbn [with_run skip_test skip_build run].
    destruct (_ && _); [|done]. unfold call, run'.
    by rewrite fn_lookup_insert, Hb. }
  assert (main_verify (with_run e run') = main_verify e) as Hverify.
  { unfold main_verify. cbn [with_run skip_build run].
    apply call_ext; [by apply Hrun|]. intros [|]; cbn [negb]; [|done].
    destruct (skip_build e); cbn [negb]; [done|].
    apply call_ext; [by apply Hrun|]. intros [|]; cbn [negb]; done. }
  assert (∀ filename skip_download,
          main_download (with_run e run') filename skip_download
          = main_download e filename skip_download) as Hdownload.
  { intros filename skip_download. unfold main_download. cbn [with_run run].
    destruct skip_download; cbn [negb]; [done|].
    repeat (apply call_ext; [by apply Hrun|]; intros [|]; cbn [negb];
            try done). }
  unfold main.
  cbn [with_run system machine clang_exists clang19_exists yes
       answer_reinstall run].
  destruct (detect_platform _ _) as [[filename name]|]; [|done].
  destruct (_ || _); [|done]. destruct (yes e); cbn [negb]; [done|].
  destruct (answer_reinstall e) as [response|]; [|done]. cbn [ask].
  case_bool_decide; cbn [negb]; [|done].
  apply call_ext; [by apply Hrun|]. done.
Qed.

(** X23. [install_llvm_complete.py] calls something, or exits with 0,
    only on one of the four platforms of its table (macOS and Linux, on
    x86_64 and ARM); and what it downloads is the archive of this
    platform, from the release 19.1.7 of [pawlang-project/llvm-build]. *)
Theorem install_platform (e : env) :
  (main e).2 ≠ [] ∨ (main e).1 = 0 →
  ∃ filename name,
    ((system e, machine e), (filename, name)) ∈ platform_map
    ∧ ∀ u f, Download u f ∈ (main e).2 →
        f = filename
        ∧ u = lit "https://github.com/pawlang-project/llvm-build/releases/download/19.1.7/"
              ++ filename.
Proof.
  unfold main, detect_platform. intros H.
  destruct (find _ _) as [[key [filename name]]|] eqn:Hfind; cbn [fmap option_fmap option_map snd] in *;
    [|by destruct H].
  apply find_some in Hfind as [Hin Hkey%bool_decide_eq_true].
  cbn [fst] in Hkey. subst key. exists filename, name.
  split; [by apply list_elem_of_In|].
  assert (url filename
          = lit "https://github.com/pawlang-project/llvm-build/releases/download/19.1.7/"
            ++ filename) as <-.
  { unfold url. by rewrite !app_assoc. }
  intros u f Hd.
  destruct (_ || _).
  - destruct (yes e); cbn [negb] in Hd;
      [by apply install_download_calls in Hd|].
    apply ask_elem in Hd as (response & _ & Hd).
    case_bool_decide; cbn [negb] in Hd;
      [|by apply install_download_calls in Hd].
    apply call_elem in Hd as [?|(_ & _ & Hd)]; [done|].
    by apply install_download_calls in Hd.
  - by apply install_download_calls in Hd.
Qed.

Lemma install_keeps_existing_unless_asked_witness :
  clang_exists ex_yes || clang19_exists ex_yes = true
  ∧ Build ∈ (main ex_yes).2
  ∧ ((yes ex_yes = false ∧ answer_reinstall ex_yes = Some (lit "y"))
     ∨ Build ∈ [Verify; Build; Test]).
Proof.
  assert (clang_exists ex_yes || clang19_exists ex_yes = true) as Hex
    by reflexivity.
  assert (Build ∈ (main ex_yes).2) as Hin by (vm_compute; find_elem).
  split; [exact Hex|]. split; [exact Hin|].
  exact (install_keeps_existing_unless_asked ex_yes Build Hex Hin).
Defined.

Lemma install_success_witness :
  let e := ex_env false in
  (main e).1 = 0
  ∧ run e Verify = Returns true
  ∧ (skip_build e = true ∨ run e Build = Returns true)
  ∧ ∃ pre,
      (main e).2
      = pre ++ Verify :: (if skip_build e then []
                          else Build :: if skip_test e then [] else [Test])
      ∧ ((pre = [] ∧ clang_exists e || clang19_exists e = true)
         ∨ ∃ pre' filename,
             pre = pre' ++ [MakeLlvmDir; MakeTempDir;
                            Download (url filename) filename;
                            Extract; Install; RemoveTemp]
             ∧ run e (Download (url filename) filename) = Returns true
             ∧ run e Extract = Returns true
             ∧ run e Install = Returns true).
Proof.
  intros e.
  assert ((main e).1 = 0) as Hcode by (vm_compute; reflexivity).
  split; [exact Hcode|].
  exact (install_success e Hcode).
Defined.

Lemma install_test_result_ignored_witness :
  run (ex_env true) Test = Returns true
  ∧ main (with_run (ex_env true)
            (<[Test := Returns false]> (run (ex_env true))))
    = main (ex_env true).
Proof.
  assert (run (ex_env true) Test = Returns true) as Hb by reflexivity.
  split; [exact Hb|].
  exact (install_test_result_ignored (ex_env true) true false Hb).
Defined.

Lemma install_platform_witness :
  ((main ex_yes).2 ≠ [] ∨ (main ex_yes).1 = 0)
  ∧ ∃ filename name,
      ((system ex_yes, machine ex_yes), (filename, name)) ∈ platform_map
      ∧ ∀ u f, Download u f ∈ (main ex_yes).2 →
          f = filename
          ∧ u = lit "https://github.com/pawlang-project/llvm-build/releases/download/19.1.7/"
                ++ filename.
Proof.
  assert ((main ex_yes).2 ≠ [] ∨ (main ex_yes).1 = 0) as Hrun
    by (right; vm_compute; reflexivity).
  split; [exact Hrun|].
  exact (install_platform ex_yes Hrun).
Defined.

End install_llvm_complete.
